(** * n19 front end: tokens, token types, token categories, keyword lookup

    A shallow embedding of the token layer of the n19 lexer
    ([Token], [TokenType], [TokenCategory]) and of the properties its
    description states about it.

    The X-macro lists [N19_TOKEN_TYPE_LIST], [N19_TOKEN_CATEGORY_LIST] and
    [N19_HIR_KEYWORDS], the enumerations generated from them and the hash
    [murmur3_x86_32] are declared in headers (Frontend/Lexer.hpp,
    Core/Murmur3.hpp) that the functions below include.  The functions are
    therefore embedded over these lists as section variables: every theorem
    of a section holds for whatever the headers declare. *)

From Stdlib Require Import ZArith NArith List String Ascii Strings.Byte Bool Lia
  Btauto DecimalString.
From coqutil Require Import Z.bitblast.
Import ListNotations.

Local Open Scope string_scope.
Local Open Scope list_scope.
Local Open Scope Z_scope.

(** ** Results *)

(** [Maybe<T>] is [option T]: [Nothing] is [None], a value [v] is
    [Some v]. *)

(** What a call does: it returns a value, or it terminates the process
    ([PANIC], a failed [ASSERT]), or it reads outside the byte span it was
    given, which C++ leaves undefined. *)
Inductive Outcome (A : Type) : Type :=
| Returned (a : A)
| Panicked (msg : string)
| Undefined.

Arguments Returned {A} a.
Arguments Panicked {A} msg.
Arguments Undefined {A}.

(** Modelled from the spec: Core/Panic.hpp is not among the sources; the
    description calls a failed [ASSERT] a fatal precondition check that
    terminates the process. *)
Definition ASSERT {A : Type} (cond : bool) (text : string)
  (continue : Outcome A) : Outcome A :=
  if cond then continue else Panicked text.

(** Modelled from the spec: [PANIC] is a macro of Core/Panic.hpp; the
    description calls it the signal of a fatal internal error that
    terminates the process. *)
Definition PANIC {A : Type} (msg : string) : Outcome A := Panicked msg.

(** How a [switch] statement is left: by [break] (also by running off its
    end), or by a [return]. *)
Inductive Flow (A : Type) : Type :=
| Break
| Return (a : A).

Arguments Break {A}.
Arguments Return {A} a.

(** Arithmetic on [uint32_t] wraps around. *)
Definition uint32 (x : Z) : Z := x mod 2 ^ 32.


(** ** std::string *)

Module Str.

Definition size (s : string) : Z := Z.of_nat (String.length s).

Definition empty (s : string) : bool := size s =? 0.

(** [s[i]]; nothing outside of the string. *)
Definition at_ (s : string) (i : Z) : option ascii :=
  if i <? 0 then None else String.get (Z.to_nat i) s.

(** [s.erase(i)] drops everything from index [i] on. *)
Definition erase (s : string) (i : Z) : string :=
  String.substring 0 (Z.to_nat i) s.

Definition is_char (c : ascii) (o : option ascii) : bool :=
  match o with
  | Some d => Ascii.eqb d c
  | None => false
  end.

End Str.

(** ** Hash evaluations

    [from_keyword] is embedded with a log of what it does with hashes: each
    call of [murmur3_x86_32] and each [switch] on a hash leaves an entry. *)

Inductive HashEvent : Type :=
| Computed (key : string) (seed : Z)
| Switched (hash : Z).

Definition Hashing (A : Type) : Type := (A * list HashEvent)%type.

Definition ret {A : Type} (a : A) : Hashing A := (a, []).

Definition bind {A B : Type} (m : Hashing A) (f : A -> Hashing B)
  : Hashing B :=
  let (a, log1) := m in
  let (b, log2) := f a in
  (b, log1 ++ log2).

Notation "x <- m ;; k" := (bind m (fun x => k))
  (at level 61, m at next level, right associativity).

Definition result {A : Type} (m : Hashing A) : A := fst m.

Definition events {A : Type} (m : Hashing A) : list HashEvent := snd m.

(** ** The keyword table *)

Module Keyword.

Section Table.

(** [murmur3_x86_32(str, seed)] of Core/Murmur3.hpp. *)
Variable murmur3_x86_32 : string -> Z -> Z.

(** The entries [KEYWORD_X(NAME, TYPE, CAT)] of [N19_HIR_KEYWORDS], in
    order: spelling, token type, token category. *)
Variable N19_HIR_KEYWORDS : list (string * Z * N).

Definition seed : Z := 0xbeef.

(** Modelled from the spec: the literal operator [_mm32] is declared in
    Core/Murmur3.hpp, not among the sources; each keyword's hash is
    computed at build time from its literal spelling using the identical
    algorithm and seed. *)
Definition _mm32 (NAME : string) : Z := murmur3_x86_32 NAME seed.

Definition hash (str : string) (seed : Z) : Hashing Z :=
  (murmur3_x86_32 str seed, [Computed str seed]).

(** [N19_HIR_KEYWORDS; default: break;] with [KEYWORD_X(NAME, TYPE, CAT)]
    expanded to [case u8##NAME##_mm32: return ...]. *)
Fixpoint cases {A : Type} (KEYWORD_X : string -> Z -> N -> A) (h : Z)
  (keywords : list (string * Z * N)) : Flow A :=
  match keywords with
  | [] => Break
  | (NAME, TYPE, CAT) :: rest =>
      if h =? _mm32 NAME then Return (KEYWORD_X NAME TYPE CAT)
      else cases KEYWORD_X h rest
  end.

Definition switch {A : Type} (KEYWORD_X : string -> Z -> N -> A) (h : Z)
  : Hashing (Flow A) :=
  (cases KEYWORD_X h N19_HIR_KEYWORDS, [Switched h]).

(** The registered spellings and their hashes, the case labels. *)
Definition spellings : list string :=
  map (fun k => fst (fst k)) N19_HIR_KEYWORDS.

Definition labels : list Z := map _mm32 spellings.

End Table.

End Keyword.

(** ** TokenType *)

Module TokenType.

Section Enumeration.

(** [enumerator "Name"] is the value of the enumerator
    [TokenType::Name]. *)
Variable enumerator : string -> Z.

(** The entries [X(TYPE, STR)] of [N19_TOKEN_TYPE_LIST], in order. *)
Variable N19_TOKEN_TYPE_LIST : list (string * string).

(** [switch(value) { N19_TOKEN_TYPE_LIST default: return "Unknown"; }]
    with [X(TYPE, STR)] expanded to [case TokenType::TYPE: return ...]. *)
Fixpoint switch_X (X : string -> string -> string) (value : Z)
  (cases : list (string * string)) : string :=
  match cases with
  | [] => "Unknown"
  | (TYPE, STR) :: rest =>
      if value =? enumerator TYPE then X TYPE STR
      else switch_X X value rest
  end.

Definition to_string (value : Z) : string :=
  switch_X (fun TYPE _ => TYPE) value N19_TOKEN_TYPE_LIST.

Definition string_repr (value : Z) : string :=
  switch_X (fun _ STR => STR) value N19_TOKEN_TYPE_LIST.

(** The values the case labels of the switch stand for. *)
Definition labels : list Z :=
  map (fun e => enumerator (fst e)) N19_TOKEN_TYPE_LIST.

End Enumeration.

Section Keywords.

Variable murmur3_x86_32 : string -> Z -> Z.
Variable N19_HIR_KEYWORDS : list (string * Z * N).

Definition from_keyword (keyword : string) : Hashing (option Z) :=
  if 15 <? Str.size keyword then ret None
  else
    h <- Keyword.hash murmur3_x86_32 keyword Keyword.seed ;;
    flow <- Keyword.switch murmur3_x86_32 N19_HIR_KEYWORDS
              (fun _ TYPE _ => TYPE) h ;;
    match flow with
    | Return TYPE => ret (Some TYPE)
    | Break => ret None
    end.

End Keywords.

End TokenType.

(** ** TokenCategory *)

Module TokenCategory.

Section Flags.

(** [enumerator "Name"] is the bit mask of [TokenCategory::Name]. *)
Variable enumerator : string -> N.

(** The names [CAT] of the entries [X(CAT, UNUSED)] of
    [N19_TOKEN_CATEGORY_LIST], in order; [to_string] does not use the
    second argument. *)
Variable N19_TOKEN_CATEGORY_LIST : list string.

(** [if(value & CAT) buff += (std::string(#CAT) + " | ");] *)
Definition X (value : N) (CAT : string) (buff : string) : string :=
  if (N.land value (enumerator CAT) =? 0)%N then buff
  else (buff ++ (CAT ++ " | "))%string.

Fixpoint expand_X (value : N) (cats : list string) (buff : string)
  : string :=
  match cats with
  | [] => buff
  | CAT :: rest => expand_X value rest (X value CAT buff)
  end.

Definition to_string (value : N) : string :=
  let buff := expand_X value N19_TOKEN_CATEGORY_LIST "" in
  if negb (Str.empty buff)
     && Str.is_char "|" (Str.at_ buff (Str.size buff - 2))
  then Str.erase buff (Str.size buff - 3)
  else (buff ++ "NonCategorical")%string.

(** The flags of the list that [value] has set, by name. *)
Definition set_flags (value : N) : list string :=
  filter (fun CAT => negb (N.land value (enumerator CAT) =? 0)%N)
    N19_TOKEN_CATEGORY_LIST.

End Flags.

Section Keywords.

Variable murmur3_x86_32 : string -> Z -> Z.
Variable N19_HIR_KEYWORDS : list (string * Z * N).

Definition from_keyword (str : string) : Hashing (option N) :=
  if 15 <? Str.size str then ret None
  else
    h <- Keyword.hash murmur3_x86_32 str Keyword.seed ;;
    flow <- Keyword.switch murmur3_x86_32 N19_HIR_KEYWORDS
              (fun _ _ CAT => CAT) h ;;
    match flow with
    | Return CAT => ret (Some CAT)
    | Break => ret None
    end.

End Keywords.

End TokenCategory.

(** ** Lexer and Token *)

(** Modelled from the spec: the class [Lexer] is declared in
    Frontend/Lexer.hpp; it owns the source byte buffer, and a token uses
    nothing of it but these bytes, [get_bytes()]. *)
Record Lexer : Type := { get_bytes : list byte }.

(** An argument of [fmt]: a string, or an unsigned integer. *)
Inductive FmtArg : Type :=
| FmtString (s : string)
| FmtUInt (n : Z).

Module Token.

(** Modelled from the spec: the class [Token] is declared in
    Frontend/Lexer.hpp; its fields are category, type, byte offset, length
    in bytes and line number.  Offset, length and line are [uint32_t], as
    the parameters of the constructors [eof] and [illegal] that are stored
    in them. *)
Record t : Type := {
  cat_ : N;
  type_ : Z;
  pos_ : Z;
  len_ : Z;
  line_ : Z
}.

Definition in_range (tok : t) : Prop :=
  0 <= pos_ tok < 2 ^ 32 /\ 0 <= len_ tok < 2 ^ 32.

(** [static_cast<char>(ch)] keeps the eight bits of the byte. *)
Definition static_cast_char (ch : byte) : ascii := ascii_of_byte ch.

(** The loop of [value]:
    [for(size_t i = pos_, j = 0; j < len_; i++, j++) ret += bytes[i];]
    The first argument is the span from index [i] on: [bytes[i]] is its
    head, [i++] drops it, and past the end of the span there is nothing
    to read. *)
Fixpoint value_loop (bytes_from_i : list byte) (j len : Z) (ret : string)
  : Outcome string :=
  if j <? len then
    match bytes_from_i with
    | [] => Undefined
    | ch :: rest =>
        value_loop rest (j + 1) len
          (ret ++ String (static_cast_char ch) "")%string
    end
  else Returned ret.

Definition value (tok : t) (lxr : Lexer) : Outcome (option string) :=
  if len_ tok =? 0 then Returned None
  else
    let bytes := get_bytes lxr in
    let size := Z.of_nat (List.length bytes) in
    ASSERT (pos_ tok <? size) "pos_ < bytes.size()" (
    ASSERT (uint32 (pos_ tok + len_ tok - 1) <? size)
           "pos_ + len_ - 1 < bytes.size()" (
    match value_loop (skipn (Z.to_nat (pos_ tok)) bytes) 0 (len_ tok) ""
    with
    | Returned ret => Returned (Some ret)
    | Panicked msg => Panicked msg
    | Undefined => Undefined
    end)).

Section Enumerators.

(** [TokenType::Name] and [TokenCategory::Name]. *)
Variable TokenType : string -> Z.
Variable TokenCategory : string -> N.

(** [len_] is not assigned by [eof]; it keeps the value of its default
    initializer, zero by the description of the end-of-file token. *)
Definition eof (pos line : Z) : t :=
  {| len_ := 0;
     pos_ := pos;
     line_ := line;
     cat_ := TokenCategory "NonCategorical";
     type_ := TokenType "EndOfFile" |}.

Definition illegal (pos length line : Z) : t :=
  {| len_ := length;
     pos_ := pos;
     line_ := line;
     cat_ := TokenCategory "NonCategorical";
     type_ := TokenType "Illegal" |}.

Definition is_terminator (tok : t) : bool :=
  (type_ tok =? TokenType "Semicolon") || (type_ tok =? TokenType "Comma").

(** The case labels of the switch in [prec], in order. *)
Definition prec_cases : list string :=
  [ "ValueAssignment"; "PlusEq"; "SubEq"; "MulEq"; "DivEq"; "ModEq";
    "LshiftEq"; "RshiftEq"; "BitwiseAndEq"; "BitwiseOrEq"; "XorEq";
    "LogicalAnd"; "LogicalOr"; "Mul"; "NamespaceOperator"; "Dot"; "Eq";
    "Neq"; "Lt"; "Lte"; "Gt"; "Gte"; "Plus"; "Sub"; "Div"; "Mod";
    "BitwiseAnd"; "BitwiseOr"; "Xor"; "Lshift"; "Rshift"; "SkinnyArrow" ].

(** The switch of [prec]: the labels share one statement list with
    [default], which is [break]. *)
Definition prec_switch (value : Z) : Flow Z :=
  if existsb (fun NAME => value =? TokenType NAME) prec_cases
  then Break
  else Break.

Definition prec (tok : t) : Outcome Z :=
  match prec_switch (type_ tok) with
  | Return rank => Returned rank
  | Break => PANIC "Token::prec(): default assertion."
  end.

End Enumerators.

Section Format.

(** The enumerations and lists of Frontend/Lexer.hpp that [format] reaches
    through [TokenType::to_string] and [TokenCategory::to_string]. *)
Variable TokenType : string -> Z.
Variable N19_TOKEN_TYPE_LIST : list (string * string).
Variable TokenCategory : string -> N.
Variable N19_TOKEN_CATEGORY_LIST : list string.

(** [fmt(format_string, args...)] of IO/Fmt.hpp: the text it builds from a
    format string and its arguments. *)
Variable fmt : string -> list FmtArg -> string.

(** Modelled from the spec: [Maybe<T>::value_or] of Core/Maybe.hpp gives
    the materialized value, or the placeholder when it is absent. *)
Definition value_or {A : Type} (m : option A) (fallback : A) : A :=
  match m with
  | Some v => v
  | None => fallback
  end.

Definition quote : string := String "034" "".
Definition newline : string := String "010" "".

(** A failed assertion inside [value] ends [format] as well; otherwise the
    four pieces are appended to the buffer in order. *)
Definition format (tok : t) (lxr : Lexer) : Outcome string :=
  let buffer := "" in
  let buffer :=
    (buffer ++ fmt "{:<12}: "
       [FmtString
          (TokenType.to_string TokenType N19_TOKEN_TYPE_LIST (type_ tok))])
      %string in
  match value tok lxr with
  | Returned lexeme =>
      let buffer :=
        (buffer ++ fmt (quote ++ "{}" ++ quote ++ " -- ")
           [FmtString (value_or lexeme "N/A")])%string in
      let buffer :=
        (buffer ++ fmt "LINE={},POS={} -- "
           [FmtUInt (line_ tok); FmtUInt (pos_ tok)])%string in
      let buffer :=
        (buffer ++ fmt ("{}" ++ newline)
           [FmtString
              (TokenCategory.to_string TokenCategory N19_TOKEN_CATEGORY_LIST
                 (cat_ tok))])%string in
      Returned buffer
  | Panicked msg => Panicked msg
  | Undefined => Undefined
  end.

End Format.

End Token.

(** ** The hash *)

Module Murmur3.

(** The steps of the public 32-bit x86 variant of MurmurHash3, on 32-bit
    words held in [Z]. *)

Definition c1 : Z := 0xcc9e2d51.
Definition c2 : Z := 0x1b873593.

Definition rotl32 (x r : Z) : Z :=
  uint32 (Z.lor (Z.shiftl x r) (Z.shiftr x (32 - r))).

Definition scramble (k : Z) : Z :=
  uint32 (rotl32 (uint32 (k * c1)) 15 * c2).

Definition mix (h k : Z) : Z :=
  uint32 (rotl32 (Z.lxor h (scramble k)) 13 * 5 + 0xe6546b64).

Definition fmix32 (h : Z) : Z :=
  let h := Z.lxor h (Z.shiftr h 16) in
  let h := uint32 (h * 0x85ebca6b) in
  let h := Z.lxor h (Z.shiftr h 13) in
  let h := uint32 (h * 0xc2b2ae35) in
  Z.lxor h (Z.shiftr h 16).

Definition code (c : ascii) : Z := Z.of_N (N_of_ascii c).

(** Four bytes read as a little-endian word. *)
Definition block (b0 b1 b2 b3 : ascii) : Z :=
  Z.lor (code b0)
    (Z.lor (Z.shiftl (code b1) 8)
       (Z.lor (Z.shiftl (code b2) 16) (Z.shiftl (code b3) 24))).

(** The blocks of four bytes, then the tail of one to three bytes. *)
Fixpoint body (key : string) (h : Z) : Z :=
  match key with
  | String b0 (String b1 (String b2 (String b3 rest))) =>
      body rest (mix h (block b0 b1 b2 b3))
  | String b0 (String b1 (String b2 EmptyString)) =>
      Z.lxor h (scramble (block b0 b1 b2 zero))
  | String b0 (String b1 EmptyString) =>
      Z.lxor h (scramble (block b0 b1 zero zero))
  | String b0 EmptyString =>
      Z.lxor h (scramble (block b0 zero zero zero))
  | EmptyString => h
  end.

(** Modelled from the spec: Core/Murmur3.hpp is not among the sources.
    The description names the hash as the public, well-known 32-bit x86
    variant of the murmur mixing hash with its three-step finalization;
    this is that algorithm. *)
Definition murmur3_x86_32 (key : string) (seed : Z) : Z :=
  fmix32 (Z.lxor (body key seed) (Str.size key)).

End Murmur3.

(** ** Inverting the hash

    Every step of the hash is a bijection of the 32-bit words: the
    multipliers are odd, rotations and xor-shifts can be undone.  The
    inverse steps give, for every 32-bit value, spellings of four and of
    eight bytes with this hash. *)

Module Unmurmur3.










End Unmurmur3.

(** ** Core/Tuple.hpp

    Types are given by codes [ty], each with the set [object T] of its
    values; a pack of types is a list of codes.  [construct T OT] is the
    constructor of [T] from a value of [OT], when [T] has one:
    [std::constructible_from<T, OT>] says whether it has.  The concept asks
    for a construction from an rvalue of [OT]; a constructor of [T] that
    takes a [const OT&] may be another one, or missing:
    [copy_construct T OT]. *)

Module Tuple.

Section Types.

Variable ty : Type.
Variable object : ty -> Type.
Variable construct : forall T OT : ty, option (object OT -> object T).
Variable copy_construct : forall T OT : ty, option (object OT -> object T).

(** [NthTypeAccessor<n, Types...>::Type].  For an empty pack only the
    declaration of the template is left, which names no type. *)
Fixpoint NthType (n : nat) (Types : list ty) {struct Types} : option ty :=
  match Types with
  | [] => None
  | T :: Tail =>
      match n with
      | O => Some T
      | S n' => NthType n' Tail
      end
  end.

(** [TupleStorage<T, Tail...>] holds [head_] and [tail_];
    [TupleStorage<>] holds nothing. *)
Fixpoint TupleStorage (Types : list ty) : Type :=
  match Types with
  | [] => unit
  | T :: Tail => (object T * TupleStorage Tail)%type
  end.

Definition head_ {T : ty} {Tail : list ty}
  (store : TupleStorage (T :: Tail)) : object T := fst store.

Definition tail_ {T : ty} {Tail : list ty}
  (store : TupleStorage (T :: Tail)) : TupleStorage Tail := snd store.

(** What an access to item [n] returns: a value of [NthType<n, Types...>];
    where there is no such type there is nothing to return. *)
Definition Item (n : nat) (Types : list ty) : Type :=
  match NthType n Types with
  | Some T => object T
  | None => unit
  end.

(** [NthItemAccessor<n, Types...>::access(store)]. *)
Fixpoint access (n : nat) (Types : list ty)
  : TupleStorage Types -> Item n Types :=
  match Types as Ts return TupleStorage Ts -> Item n Ts with
  | [] => fun _ => tt
  | T :: Tail =>
      match n as m return TupleStorage (T :: Tail) -> Item m (T :: Tail) with
      | O => fun store => head_ store
      | S n' => fun store => access n' Tail (tail_ store)
      end
  end.

(** An item together with its type. *)
Definition typed (n : nat) (Types : list ty)
  : Item n Types -> option {T : ty & object T} :=
  match NthType n Types as o
    return match o with Some T => object T | None => unit end ->
           option {T : ty & object T}
  with
  | Some T => fun v => Some (existT object T v)
  | None => fun _ => None
  end.

(** The item that the constructor of [T] from a [const OT&] makes of a
    typed item. *)
Definition converted (T : ty) (item : option {OT : ty & object OT})
  : option {T' : ty & object T'} :=
  match item with
  | Some (existT _ OT v) =>
      match copy_construct T OT with
      | Some ctor => Some (existT object T (ctor v))
      | None => None
      end
  | None => None
  end.

(** [class Tuple<Types...>] with its one field. *)
Record Tuple (Types : list ty) : Type := { store_ : TupleStorage Types }.

Arguments store_ {Types} _.

(** [get<i>()]; the [static_assert] rejects an [i] that is no index of the
    pack before anything is accessed. *)
Definition get (i : nat) {Types : list ty} (tup : Tuple Types)
  : Item i Types :=
  access i Types (store_ tup).

(** [tuple_accessor<n>(tup)]. *)
Definition tuple_accessor (n : nat) {Types : list ty} (tup : Tuple Types)
  : Item n Types :=
  get n tup.

(** [std::tuple_size<Tuple<Types...>>::value]. *)
Definition tuple_size (Types : list ty) : nat := List.length Types.

Definition constructible_from (T OT : ty) : bool :=
  match construct T OT with
  | Some _ => true
  | None => false
  end.

(** [Tuple<Types...>::ConstructibleWith_<n, OTs...>::value]: no value when
    [NthType<n, ...>] names no type in one of the packs. *)
Fixpoint ConstructibleWith_ (Types : list ty) (n : nat) (OTs : list ty)
  : option bool :=
  let here :=
    match NthType n Types, NthType n OTs with
    | Some T, Some OT => Some (constructible_from T OT)
    | _, _ => None
    end in
  match n with
  | O => here
  | S n' =>
      match here, ConstructibleWith_ Types n' OTs with
      | Some this, Some before => Some (this && before)
      | _, _ => None
      end
  end.

(** The constructor template
    [TupleStorage(const TupleStorage<OTs...>& other)
       : head_(other.head_), tail_(other.tail_)].
    [other.head_] is a [const OT] lvalue: [head_] is built by the
    constructor of [T] that takes a [const OT&].  The template cannot be
    instantiated when [T] has no such constructor, when [other] has no
    [head_] or when the packs end at different places. *)
Fixpoint convert (Types OTs : list ty)
  : TupleStorage OTs -> option (TupleStorage Types) :=
  match Types as Ts return TupleStorage OTs -> option (TupleStorage Ts) with
  | [] =>
      match OTs as Os return TupleStorage Os -> option (TupleStorage [])
      with
      | [] => fun other => Some other
      | _ :: _ => fun _ => None
      end
  | T :: Tail =>
      match OTs as Os
        return TupleStorage Os -> option (TupleStorage (T :: Tail))
      with
      | [] => fun _ => None
      | OT :: OTail => fun other =>
          match copy_construct T OT, convert Tail OTail (tail_ other) with
          | Some ctor, Some tail => Some (ctor (head_ other), tail)
          | _, _ => None
          end
      end
  end.

(** The constructor template [Tuple(const Tuple<OTs...>& other)
    : store_(other.store_)] with its requires-clause
    [ConstructibleWith_<sizeof...(OTs) - 1, OTs...>::value]; [None] when
    the constructor cannot be used: the requires-clause does not hold, or
    the storage cannot be built from [other.store_].  For an empty pack
    [OTs] the index wraps around to the largest [size_t], which is no index
    of a pack. *)
Definition Tuple_from {Types OTs : list ty} (other : Tuple OTs)
  : option (Tuple Types) :=
  match OTs with
  | [] => None
  | _ :: _ =>
      match ConstructibleWith_ Types (List.length OTs - 1) OTs with
      | Some true =>
          match convert Types OTs (store_ other) with
          | Some store => Some {| store_ := store |}
          | None => None
          end
      | _ => None
      end
  end.

End Types.

End Tuple.

(** ** Sys/IODevice.hpp

    The device is the handle [value_] of its base class and the
    permissions [perms_]; the calls it makes to the operating system are
    kept in a log. *)

Module IODevice.

Inductive Platform : Type :=
| N19_POSIX
| N19_WIN32.

(** [enum Permissions : uint8_t]. *)
Definition NoAccess : Z := 0x00.
Definition Read : Z := 0x01.
Definition Write : Z := Z.shiftl 0x01 1.
Definition Execute : Z := Z.shiftl 0x01 2.

(** [value_] is the member of the base class [Handle<int>], or
    [Handle<HANDLE>] on Windows; [perms_] is a [uint8_t]. *)
Record t : Type := { value_ : Z; perms_ : Z }.

(** The system calls of the member functions. *)
Inductive Call : Type :=
| posix_close (fd : Z)
| posix_fsync (fd : Z)
| CancelIoEx (handle : Z)
| CloseHandle (handle : Z)
| FlushFileBuffers (handle : Z).

(** A member function: from the device to a result, the device after the
    call and the calls made. *)
Definition Method (A : Type) : Type := t -> A * t * list Call.

Definition pure {A : Type} (a : A) : Method A := fun dev => (a, dev, []).

Definition seq {A B : Type} (m : Method A) (f : A -> Method B) : Method B :=
  fun dev =>
    let '(a, dev1, calls1) := m dev in
    let '(b, dev2, calls2) := f a dev1 in
    (b, dev2, calls1 ++ calls2).

Definition call (c : Call) : Method unit := fun dev => (tt, dev, [c]).

Definition this : Method t := fun dev => (dev, dev, []).

(** The handle that stands for no device: [-1], or the null [HANDLE]. *)
Definition invalid_handle (platform : Platform) : Z :=
  match platform with
  | N19_POSIX => -1
  | N19_WIN32 => 0x00
  end.

Definition invalidate (platform : Platform) : Method unit :=
  fun _ =>
    (tt, {| value_ := invalid_handle platform; perms_ := NoAccess |}, []).

Definition close (platform : Platform) : Method unit :=
  match platform with
  | N19_POSIX =>
      seq this (fun dev =>
      seq (call (posix_close (value_ dev))) (fun _ =>
      invalidate N19_POSIX))
  | N19_WIN32 =>
      seq this (fun dev =>
      seq (call (CancelIoEx (value_ dev))) (fun _ =>
      seq (call (CloseHandle (value_ dev))) (fun _ =>
      invalidate N19_WIN32)))
  end.

Definition is_invalid (platform : Platform) : Method bool :=
  seq this (fun dev => pure (value_ dev =? invalid_handle platform)).

Definition flush_handle (platform : Platform) : Method unit :=
  seq this (fun dev =>
    match platform with
    | N19_POSIX => call (posix_fsync (value_ dev))
    | N19_WIN32 => call (FlushFileBuffers (value_ dev))
    end).

End IODevice.

(** ** A small instance

    The lists of Frontend/Lexer.hpp are not among the sources.  To run the
    definitions, this instance fills them with the names the sources show
    (the enumerators used by [Token], the examples of the comments) and a
    few entries of its own; enumerators are numbered by position, the
    category flags are single bits. *)

Module Sample.

Definition N19_TOKEN_TYPE_LIST : list (string * string) :=
  [ ("EndOfFile", "EndOfFile"); ("Illegal", "Illegal");
    ("Identifier", "Identifier"); ("Semicolon", ";"); ("Comma", ",");
    ("LogicalAnd", "&&"); ("PlusEq", "+="); ("Plus", "+");
    ("Return", "return"); ("If", "if"); ("While", "while") ].

Fixpoint position (name : string) (names : list string) (n : Z) : Z :=
  match names with
  | [] => n
  | x :: rest => if String.eqb name x then n else position name rest (n + 1)
  end.

Definition TokenType_enumerator (name : string) : Z :=
  position name (map fst N19_TOKEN_TYPE_LIST) 0.

Definition N19_TOKEN_CATEGORY_LIST : list string :=
  [ "NonCategorical"; "Keyword"; "Operator"; "Assignment"; "Arithmetic" ].

Definition TokenCategory_enumerator (name : string) : N :=
  match position name N19_TOKEN_CATEGORY_LIST 0 with
  | 0 => 0%N
  | n => N.shiftl 1 (Z.to_N (n - 1))
  end.

Definition N19_HIR_KEYWORDS : list (string * Z * N) :=
  [ ("return", TokenType_enumerator "Return",
      TokenCategory_enumerator "Keyword");
    ("if", TokenType_enumerator "If", TokenCategory_enumerator "Keyword");
    ("while", TokenType_enumerator "While",
      TokenCategory_enumerator "Keyword") ].

Definition lexer : Lexer :=
  {| get_bytes := [x78; x20; x2b; x3d; x20; x31; x3b]%byte |}.

End Sample.

(** ** A small formatter

    IO/Fmt.hpp is not among the sources.  To run [Token::format], this
    formatter handles the two replacement fields its format strings use:
    a plain field, and a field padded with spaces on the right to twelve
    columns. *)

Module SampleFmt.

Definition render (arg : FmtArg) : string :=
  match arg with
  | FmtString s => s
  | FmtUInt n => NilZero.string_of_int (Z.to_int n)
  end.

Fixpoint spaces (n : nat) : string :=
  match n with
  | O => ""
  | S n' => String " " (spaces n')
  end.

Definition pad_right (width : nat) (s : string) : string :=
  (s ++ spaces (width - String.length s))%string.

Definition first_arg (args : list FmtArg) : string :=
  match args with
  | [] => ""
  | arg :: _ => render arg
  end.

(** [skip] counts the characters of a replacement field still to pass. *)
Fixpoint fmt_from (skip : nat) (f : string) (args : list FmtArg) : string :=
  match f with
  | EmptyString => ""
  | String c rest =>
      match skip with
      | S skip' => fmt_from skip' rest args
      | O =>
          if String.prefix "{}" f
          then (first_arg args ++ fmt_from 1 rest (tl args))%string
          else if String.prefix "{:<12}" f
          then (pad_right 12 (first_arg args)
                ++ fmt_from 5 rest (tl args))%string
          else String c (fmt_from 0 rest args)
      end
  end.

Definition fmt (f : string) (args : list FmtArg) : string :=
  fmt_from 0 f args.

Definition format (tok : Token.t) (lxr : Lexer) : Outcome string :=
  Token.format Sample.TokenType_enumerator Sample.N19_TOKEN_TYPE_LIST
    Sample.TokenCategory_enumerator Sample.N19_TOKEN_CATEGORY_LIST fmt
    tok lxr.

(** The token [+=] of the sample buffer. *)
Definition plus_eq : Token.t :=
  {| Token.cat_ := 12;
     Token.type_ := Sample.TokenType_enumerator "PlusEq";
     Token.pos_ := 2;
     Token.len_ := 2;
     Token.line_ := 1 |}.

End SampleFmt.

(** ** A small universe of types

    Three types to run [Tuple] with: a narrow and a wide integer and a
    boolean, with the constructors between them (widening, truth of an
    integer, copies). *)

Module SampleTuple.

Inductive ty : Type :=
| Int
| Long
| Bool.

Definition object (T : ty) : Type :=
  match T with
  | Int => Z
  | Long => Z
  | Bool => bool
  end.

Definition construct (T OT : ty) : option (object OT -> object T) :=
  match T as a, OT as b return option (object b -> object a) with
  | Int, Int => Some (fun v => v)
  | Long, Long => Some (fun v => v)
  | Long, Int => Some (fun v => v)
  | Bool, Bool => Some (fun b => b)
  | Bool, Int => Some (fun v => negb (v =? 0))
  | _, _ => None
  end.

(** From a [const] lvalue, no boolean is made of an integer. *)
Definition copy_construct (T OT : ty) : option (object OT -> object T) :=
  match T as a, OT as b return option (object b -> object a) with
  | Int, Int => Some (fun v => v)
  | Long, Long => Some (fun v => v)
  | Long, Int => Some (fun v => v)
  | Bool, Bool => Some (fun b => b)
  | _, _ => None
  end.

Definition ints : Tuple.Tuple ty object [Int; Int] :=
  {| Tuple.store_ := ((7, (0, tt)) : Tuple.TupleStorage ty object [Int; Int])
  |}.

Definition one_int : Tuple.Tuple ty object [Int] :=
  {| Tuple.store_ := ((7, tt) : Tuple.TupleStorage ty object [Int]) |}.

End SampleTuple.

(** ** Tactics *)





(** * Properties *)

(** ** TokenType: names and spellings *)

Section TokenType_strings.

Variable enumerator : string -> Z.
Variable N19_TOKEN_TYPE_LIST : list (string * string).

(** A value that is no case label reaches [default]. *)
Lemma switch_X_default X value cases :
  ~ In value (TokenType.labels enumerator cases) ->
  TokenType.switch_X enumerator X value cases = "Unknown".
Proof.
  induction cases as [| [TYPE STR] rest IH]; simpl; intros Hout.
  - reflexivity.
  - destruct (Z.eqb_spec value (enumerator TYPE)) as [-> | _].
    + exfalso. apply Hout. now left.
    + apply IH. intros Hin. apply Hout. now right.
Qed.

(** With pairwise distinct labels, the label of an entry selects this
    entry. *)
Lemma switch_X_case X TYPE STR cases :
  NoDup (TokenType.labels enumerator cases) ->
  In (TYPE, STR) cases ->
  TokenType.switch_X enumerator X (enumerator TYPE) cases = X TYPE STR.
Proof.
  induction cases as [| [TYPE' STR'] rest IH]; simpl; intros Hnd Hin.
  - contradiction.
  - inversion Hnd as [| v vs Hfresh Hrest]; subst.
    destruct Hin as [Heq | Hin].
    + inversion Heq; subst. now rewrite Z.eqb_refl.
    + destruct (Z.eqb_spec (enumerator TYPE) (enumerator TYPE')) as [E | _].
      * exfalso. apply Hfresh. rewrite <- E.
        change (enumerator TYPE) with
          ((fun e : string * string => enumerator (fst e)) (TYPE, STR)).
        now apply in_map.
      * now apply IH.
Qed.

(** C8: [to_string] and [string_repr] are total: for every variant of the
    list they return its canonical name and its surface spelling, and for
    every value that is no enumerator of the list they return "Unknown".
    The case labels of a switch are pairwise distinct. *)
Theorem TokenType_strings_total :
  NoDup (TokenType.labels enumerator N19_TOKEN_TYPE_LIST) ->
  (forall TYPE STR, In (TYPE, STR) N19_TOKEN_TYPE_LIST ->
     TokenType.to_string enumerator N19_TOKEN_TYPE_LIST (enumerator TYPE)
       = TYPE /\
     TokenType.string_repr enumerator N19_TOKEN_TYPE_LIST (enumerator TYPE)
       = STR) /\
  (forall value,
     ~ In value (TokenType.labels enumerator N19_TOKEN_TYPE_LIST) ->
     TokenType.to_string enumerator N19_TOKEN_TYPE_LIST value = "Unknown" /\
     TokenType.string_repr enumerator N19_TOKEN_TYPE_LIST value
       = "Unknown").
Proof.
  intros Hnd. split.
  - intros TYPE STR Hin. unfold TokenType.to_string, TokenType.string_repr.
    split; now rewrite (switch_X_case _ TYPE STR).
  - intros value Hout. unfold TokenType.to_string, TokenType.string_repr.
    split; now apply switch_X_default.
Qed.

End TokenType_strings.

Lemma TokenType_strings_total_witness :
  (TokenType.to_string Sample.TokenType_enumerator Sample.N19_TOKEN_TYPE_LIST
     (Sample.TokenType_enumerator "LogicalAnd") = "LogicalAnd" /\
   TokenType.string_repr Sample.TokenType_enumerator
     Sample.N19_TOKEN_TYPE_LIST (Sample.TokenType_enumerator "LogicalAnd")
     = "&&") /\
  (TokenType.to_string Sample.TokenType_enumerator Sample.N19_TOKEN_TYPE_LIST
     400 = "Unknown" /\
   TokenType.string_repr Sample.TokenType_enumerator
     Sample.N19_TOKEN_TYPE_LIST 400 = "Unknown").
Proof.
  assert (Hnd : NoDup (TokenType.labels Sample.TokenType_enumerator
                         Sample.N19_TOKEN_TYPE_LIST)).
  { vm_compute. repeat constructor; simpl; intuition discriminate. }
  destruct (TokenType_strings_total Sample.TokenType_enumerator
              Sample.N19_TOKEN_TYPE_LIST Hnd) as [Hin Hout].
  split.
  - apply Hin. simpl. tauto.
  - apply Hout. vm_compute. intuition discriminate.
Defined.

(** ** Token: terminators and precedence *)

Section Token_enumerators.

Variable TokenType : string -> Z.

(** C9: [is_terminator] is true exactly for the tokens whose type is
    [Semicolon] or [Comma]. *)
Theorem is_terminator_iff (tok : Token.t) :
  Token.is_terminator TokenType tok = true <->
  Token.type_ tok = TokenType "Semicolon" \/
  Token.type_ tok = TokenType "Comma".
Proof.
  unfold Token.is_terminator.
  rewrite orb_true_iff, !Z.eqb_eq. reflexivity.
Qed.

(** Every path through the switch of [prec] ends in [break]. *)
Lemma prec_switch_breaks value : Token.prec_switch TokenType value = Break.
Proof.
  unfold Token.prec_switch.
  now destruct (existsb _ Token.prec_cases).
Qed.

(** C1: for every token, whatever its type, [prec] returns no precedence:
    the switch falls through to [break] and the call ends in the fatal
    error behind it. *)
Theorem prec_always_panics (tok : Token.t) :
  Token.prec_switch TokenType (Token.type_ tok) = Break /\
  Token.prec TokenType tok = Panicked "Token::prec(): default assertion." /\
  (forall rank, Token.prec TokenType tok <> Returned rank).
Proof.
  unfold Token.prec. rewrite prec_switch_breaks.
  repeat split. intros rank H. discriminate H.
Qed.

End Token_enumerators.

(** ** std::string facts *)

Lemma append_empty_r (s : string) : (s ++ "")%string = s.
Proof. induction s as [| c s IH]; simpl; [reflexivity | now rewrite IH]. Qed.

Lemma append_assoc (s1 s2 s3 : string) :
  ((s1 ++ s2) ++ s3)%string = (s1 ++ (s2 ++ s3))%string.
Proof. induction s1 as [| c s1 IH]; simpl; [reflexivity | now rewrite IH]. Qed.

Lemma length_append (s1 s2 : string) :
  String.length (s1 ++ s2) = (String.length s1 + String.length s2)%nat.
Proof. induction s1 as [| c s1 IH]; simpl; [reflexivity | now rewrite IH]. Qed.

Lemma get_append_r (s1 s2 : string) (n : nat) :
  String.get (String.length s1 + n) (s1 ++ s2) = String.get n s2.
Proof. induction s1 as [| c s1 IH]; simpl; [reflexivity | exact IH]. Qed.

Lemma substring_append_l (s1 s2 : string) :
  String.substring 0 (String.length s1) (s1 ++ s2) = s1.
Proof.
  induction s1 as [| c s1 IH]; simpl.
  - now destruct s2.
  - now rewrite IH.
Qed.

(** ** Token: the lexeme *)

(** The loop copies [len - j] bytes when the span still holds as many. *)
Lemma value_loop_copies bytes_from_i : forall j len ret,
  0 <= j <= len ->
  len - j <= Z.of_nat (List.length bytes_from_i) ->
  Token.value_loop bytes_from_i j len ret
  = Returned
      (ret ++ string_of_list_byte
                (firstn (Z.to_nat (len - j)) bytes_from_i))%string.
Proof.
  induction bytes_from_i as [| ch rest IH]; intros j len ret Hj Hlen;
    simpl in *.
  - assert (j = len) as -> by lia.
    rewrite Z.ltb_irrefl, Z.sub_diag. simpl.
    now rewrite append_empty_r.
  - destruct (Z.ltb_spec j len) as [Hlt | Hge].
    + rewrite IH by lia.
      replace (Z.to_nat (len - j)) with (S (Z.to_nat (len - (j + 1))))
        by lia.
      rewrite firstn_cons. unfold string_of_list_byte. simpl.
      now rewrite append_assoc.
    + assert (j = len) as -> by lia.
      rewrite Z.sub_diag. simpl. now rewrite append_empty_r.
Qed.

(** The loop runs off the span when it holds fewer than [len - j] bytes. *)
Lemma value_loop_overruns bytes_from_i : forall j len ret,
  Z.of_nat (List.length bytes_from_i) < len - j ->
  Token.value_loop bytes_from_i j len ret = Undefined.
Proof.
  induction bytes_from_i as [| ch rest IH]; intros j len ret Hlen;
    simpl in *.
  - destruct (Z.ltb_spec j len); [reflexivity | lia].
  - destruct (Z.ltb_spec j len); [| lia]. apply IH. lia.
Qed.

Lemma uint32_le (x : Z) : 0 <= x -> uint32 x <= x.
Proof. intros H. unfold uint32. apply Z.mod_le; lia. Qed.

(** Within the span, both assertions hold and the lexeme is returned. *)
Lemma value_in_bounds (tok : Token.t) (lxr : Lexer) :
  Token.in_range tok ->
  Token.len_ tok <> 0 ->
  Token.pos_ tok + Token.len_ tok <= Z.of_nat (List.length (get_bytes lxr)) ->
  Token.value tok lxr
  = Returned
      (Some (string_of_list_byte
               (firstn (Z.to_nat (Token.len_ tok))
                  (skipn (Z.to_nat (Token.pos_ tok)) (get_bytes lxr))))).
Proof.
  intros [Hpos Hlen] Hnz Hspan. unfold Token.value, ASSERT.
  destruct (Z.eqb_spec (Token.len_ tok) 0) as [E | _]; [contradiction |].
  destruct (Z.ltb_spec (Token.pos_ tok)
              (Z.of_nat (List.length (get_bytes lxr)))) as [_ | H]; [| lia].
  pose proof (uint32_le (Token.pos_ tok + Token.len_ tok - 1)) as Hle.
  destruct (Z.ltb_spec (uint32 (Token.pos_ tok + Token.len_ tok - 1))
              (Z.of_nat (List.length (get_bytes lxr)))) as [_ | H]; [| lia].
  rewrite value_loop_copies.
  - now rewrite Z.sub_0_r.
  - lia.
  - rewrite length_skipn. lia.
Qed.

(** A failed assertion ends the call in a panic, never in a value. *)
Lemma value_assert_fails (tok : Token.t) (lxr : Lexer) :
  Token.len_ tok <> 0 ->
  Z.of_nat (List.length (get_bytes lxr)) <= Token.pos_ tok \/
  Z.of_nat (List.length (get_bytes lxr))
    <= uint32 (Token.pos_ tok + Token.len_ tok - 1) ->
  exists msg, Token.value tok lxr = Panicked msg.
Proof.
  intros Hnz Hout. unfold Token.value, ASSERT.
  destruct (Z.eqb_spec (Token.len_ tok) 0) as [E | _]; [contradiction |].
  destruct (Z.ltb_spec (Token.pos_ tok)
              (Z.of_nat (List.length (get_bytes lxr)))) as [Hp | _];
    [| now eexists].
  destruct (Z.ltb_spec (uint32 (Token.pos_ tok + Token.len_ tok - 1))
              (Z.of_nat (List.length (get_bytes lxr)))) as [Hq | _];
    [lia | now eexists].
Qed.

(** X22: when the 32-bit sum wraps around, the second assertion compares a
    small number: a token that starts inside the buffer and ends outside of
    it passes both assertions and the loop leaves the buffer. *)
Lemma value_wrapped_sum_overruns (tok : Token.t) (lxr : Lexer) :
  Token.in_range tok ->
  Token.pos_ tok < Z.of_nat (List.length (get_bytes lxr)) ->
  Z.of_nat (List.length (get_bytes lxr)) < Token.pos_ tok + Token.len_ tok ->
  2 ^ 32 <= Token.pos_ tok + Token.len_ tok - 1 ->
  Token.value tok lxr = Undefined.
Proof.
  intros [Hpos Hlen] Hin Hout Hwrap. unfold Token.value, ASSERT.
  destruct (Z.eqb_spec (Token.len_ tok) 0) as [E | _]; [lia |].
  destruct (Z.ltb_spec (Token.pos_ tok)
              (Z.of_nat (List.length (get_bytes lxr)))) as [_ | H]; [| lia].
  assert (Hsum : uint32 (Token.pos_ tok + Token.len_ tok - 1)
                 = Token.pos_ tok + Token.len_ tok - 1 - 2 ^ 32).
  { unfold uint32. symmetry.
    apply (Z.mod_unique _ _ 1); lia. }
  rewrite Hsum.
  destruct (Z.ltb_spec (Token.pos_ tok + Token.len_ tok - 1 - 2 ^ 32)
              (Z.of_nat (List.length (get_bytes lxr)))) as [_ | H]; [| lia].
  rewrite value_loop_overruns; [reflexivity |].
  rewrite length_skipn. lia.
Qed.

(** C3: for a token of nonzero length whose span lies in the lexer's
    buffer, [value] returns the bytes of the buffer from [pos_] to
    [pos_ + len_] (exclusive), byte for byte; for a token of length zero it
    returns [Nothing] and does not fail. *)
Theorem value_is_the_lexeme (lxr : Lexer) :
  (forall tok,
     Token.in_range tok ->
     Token.len_ tok <> 0 ->
     Token.pos_ tok + Token.len_ tok
       <= Z.of_nat (List.length (get_bytes lxr)) ->
     exists ret,
       Token.value tok lxr = Returned (Some ret) /\
       list_byte_of_string ret
       = firstn (Z.to_nat (Token.len_ tok))
           (skipn (Z.to_nat (Token.pos_ tok)) (get_bytes lxr))) /\
  (forall tok, Token.len_ tok = 0 -> Token.value tok lxr = Returned None).
Proof.
  split.
  - intros tok Hrange Hnz Hspan. eexists. split.
    + now apply value_in_bounds.
    + apply list_byte_of_string_of_list_byte.
  - intros tok Hz. unfold Token.value. now rewrite Hz.
Qed.

Lemma value_is_the_lexeme_witness :
  (exists ret,
     Token.value
       (Token.illegal Sample.TokenType_enumerator
          Sample.TokenCategory_enumerator 2 2 1) Sample.lexer
     = Returned (Some ret) /\
     list_byte_of_string ret = [x2b; x3d]%byte) /\
  Token.value
    (Token.eof Sample.TokenType_enumerator
       Sample.TokenCategory_enumerator 7 1) Sample.lexer
  = Returned None.
Proof.
  destruct (value_is_the_lexeme Sample.lexer) as [Hspan Hzero].
  split.
  - apply (Hspan (Token.illegal Sample.TokenType_enumerator
                    Sample.TokenCategory_enumerator 2 2 1)).
    + unfold Token.in_range. simpl. lia.
    + simpl. lia.
    + simpl. lia.
  - apply Hzero. reflexivity.
Defined.

(** C6, at a token whose length makes the 32-bit sum [pos_ + len_ - 1] wrap
    around: the last byte of the span lies far outside the buffer, yet both
    assertions hold (the wrapped sum is 3), the call does not end in a
    panic, and the loop reads past the end of the buffer. *)
Theorem value_bound_check_wraps :
  let tok := Token.illegal Sample.TokenType_enumerator
               Sample.TokenCategory_enumerator 5 4294967295 1 in
  Token.in_range tok /\
  Token.len_ tok <> 0 /\
  Z.of_nat (List.length (get_bytes Sample.lexer))
    <= Token.pos_ tok + Token.len_ tok - 1 /\
  uint32 (Token.pos_ tok + Token.len_ tok - 1) = 3 /\
  Token.value tok Sample.lexer = Undefined.
Proof.
  simpl. unfold Token.in_range. simpl.
  repeat split; try lia; try discriminate.
Qed.

(** ** Keyword lookup *)

Section Keyword_lookup.

Variable murmur3_x86_32 : string -> Z -> Z.
Variable N19_HIR_KEYWORDS : list (string * Z * N).

Lemma spelling_registered K TYPE CAT (keywords : list (string * Z * N)) :
  In (K, TYPE, CAT) keywords -> In K (Keyword.spellings keywords).
Proof.
  intros Hin. unfold Keyword.spellings.
  exact (in_map (fun k => fst (fst k)) keywords (K, TYPE, CAT) Hin).
Qed.

(** A hash that is no case label leaves the switch by [default: break]. *)
Lemma cases_default {A : Type} (KEYWORD_X : string -> Z -> N -> A) h
  keywords :
  ~ In h (Keyword.labels murmur3_x86_32 keywords) ->
  Keyword.cases murmur3_x86_32 KEYWORD_X h keywords = Break.
Proof.
  induction keywords as [| [[NAME TYPE] CAT] rest IH]; simpl; intros Hout.
  - reflexivity.
  - destruct (Z.eqb_spec h (Keyword._mm32 murmur3_x86_32 NAME)) as [-> | _].
    + exfalso. apply Hout. now left.
    + apply IH. intros Hin. apply Hout. now right.
Qed.

(** With pairwise distinct labels, the hash of a registered spelling selects
    the entry of this spelling. *)
Lemma cases_label {A : Type} (KEYWORD_X : string -> Z -> N -> A) NAME TYPE
  CAT keywords :
  NoDup (Keyword.labels murmur3_x86_32 keywords) ->
  In (NAME, TYPE, CAT) keywords ->
  Keyword.cases murmur3_x86_32 KEYWORD_X
    (Keyword._mm32 murmur3_x86_32 NAME) keywords
  = Return (KEYWORD_X NAME TYPE CAT).
Proof.
  induction keywords as [| [[NAME' TYPE'] CAT'] rest IH]; simpl;
    intros Hnd Hin.
  - contradiction.
  - inversion Hnd as [| v vs Hfresh Hrest]; subst.
    destruct Hin as [Heq | Hin].
    + inversion Heq; subst. now rewrite Z.eqb_refl.
    + destruct (Z.eqb_spec (Keyword._mm32 murmur3_x86_32 NAME)
                  (Keyword._mm32 murmur3_x86_32 NAME')) as [E | _].
      * exfalso. apply Hfresh. rewrite <- E.
        apply in_map. now apply (spelling_registered NAME TYPE CAT).
      * now apply IH.
Qed.

(** The two switches are left the same way: the labels are the same, only
    the returned component differs. *)
Lemma cases_same_flow {A B : Type} (X : string -> Z -> N -> A)
  (Y : string -> Z -> N -> B) h keywords :
  Keyword.cases murmur3_x86_32 X h keywords = Break <->
  Keyword.cases murmur3_x86_32 Y h keywords = Break.
Proof.
  induction keywords as [| [[NAME TYPE] CAT] rest IH]; simpl.
  - tauto.
  - destruct (h =? Keyword._mm32 murmur3_x86_32 NAME); [| exact IH].
    split; discriminate.
Qed.

(** Past the length guard, the result is what the switch on the hash
    gives. *)
Lemma TokenType_from_keyword_switch keyword :
  Str.size keyword <= 15 ->
  result (TokenType.from_keyword murmur3_x86_32 N19_HIR_KEYWORDS keyword)
  = match Keyword.cases murmur3_x86_32 (fun _ TYPE _ => TYPE)
            (murmur3_x86_32 keyword Keyword.seed) N19_HIR_KEYWORDS with
    | Return TYPE => Some TYPE
    | Break => None
    end.
Proof.
  intros Hlen. unfold TokenType.from_keyword.
  destruct (Z.ltb_spec 15 (Str.size keyword)); [lia |].
  unfold Keyword.hash, Keyword.switch, bind, ret, result. simpl.
  now destruct (Keyword.cases _ _ _ _).
Qed.

Lemma TokenCategory_from_keyword_switch str :
  Str.size str <= 15 ->
  result (TokenCategory.from_keyword murmur3_x86_32 N19_HIR_KEYWORDS str)
  = match Keyword.cases murmur3_x86_32 (fun _ _ CAT => CAT)
            (murmur3_x86_32 str Keyword.seed) N19_HIR_KEYWORDS with
    | Return CAT => Some CAT
    | Break => None
    end.
Proof.
  intros Hlen. unfold TokenCategory.from_keyword.
  destruct (Z.ltb_spec 15 (Str.size str)); [lia |].
  unfold Keyword.hash, Keyword.switch, bind, ret, result. simpl.
  now destruct (Keyword.cases _ _ _ _).
Qed.

(** Behind the length guard nothing is done. *)
Lemma from_keyword_too_long (str : string) :
  15 < Str.size str ->
  TokenType.from_keyword murmur3_x86_32 N19_HIR_KEYWORDS str = ret None /\
  TokenCategory.from_keyword murmur3_x86_32 N19_HIR_KEYWORDS str = ret None.
Proof.
  intros Hlen.
  unfold TokenType.from_keyword, TokenCategory.from_keyword.
  destruct (Z.ltb_spec 15 (Str.size str)); [| lia].
  split; reflexivity.
Qed.

(** C4: for a spelling longer than 15 bytes both lookups return [Nothing] at
    once: no hash is computed and none is compared. *)
Theorem from_keyword_length_guard (str : string) :
  15 < Str.size str ->
  (result (TokenType.from_keyword murmur3_x86_32 N19_HIR_KEYWORDS str) = None
   /\ events (TokenType.from_keyword murmur3_x86_32 N19_HIR_KEYWORDS str)
      = []) /\
  (result (TokenCategory.from_keyword murmur3_x86_32 N19_HIR_KEYWORDS str)
     = None
   /\ events (TokenCategory.from_keyword murmur3_x86_32 N19_HIR_KEYWORDS str)
      = []).
Proof.
  intros Hlen.
  destruct (from_keyword_too_long str Hlen) as [-> ->].
  repeat split.
Qed.

(** Both lookups do the same with hashes: the same guard, the same hash of
    the same seed, a switch on the same value. *)
Lemma from_keyword_same_events (s : string) :
  events (TokenCategory.from_keyword murmur3_x86_32 N19_HIR_KEYWORDS s)
  = events (TokenType.from_keyword murmur3_x86_32 N19_HIR_KEYWORDS s).
Proof.
  unfold TokenCategory.from_keyword, TokenType.from_keyword.
  destruct (15 <? Str.size s); [reflexivity |].
  unfold Keyword.hash, Keyword.switch, bind, ret, events. simpl.
  now destruct (Keyword.cases _ _ _ _), (Keyword.cases _ _ _ _).
Qed.

(** C10: the category lookup returns [Nothing] exactly when the type lookup
    does: same length guard, same hash and seed, same keyword list. *)
Theorem from_keyword_absent_together (s : string) :
  (result (TokenCategory.from_keyword murmur3_x86_32 N19_HIR_KEYWORDS s)
     = None <->
   result (TokenType.from_keyword murmur3_x86_32 N19_HIR_KEYWORDS s) = None)
  /\ events (TokenCategory.from_keyword murmur3_x86_32 N19_HIR_KEYWORDS s)
     = events (TokenType.from_keyword murmur3_x86_32 N19_HIR_KEYWORDS s).
Proof.
  split; [| apply from_keyword_same_events].
  destruct (Z.ltb_spec 15 (Str.size s)) as [Hlong | Hshort].
  - destruct (from_keyword_too_long s Hlong) as [-> ->]. tauto.
  - rewrite TokenType_from_keyword_switch, TokenCategory_from_keyword_switch
      by assumption.
    pose proof (cases_same_flow (fun _ _ CAT => CAT) (fun _ TYPE _ => TYPE)
                  (murmur3_x86_32 s Keyword.seed) N19_HIR_KEYWORDS)
      as [Hcat Htype].
    destruct (Keyword.cases murmur3_x86_32 (fun _ _ CAT => CAT) _ _)
      as [| CAT];
      destruct (Keyword.cases murmur3_x86_32 (fun _ TYPE _ => TYPE) _ _)
      as [| TYPE]; split; intros H; trivial; try discriminate H.
    + discriminate (Hcat eq_refl).
    + discriminate (Htype eq_refl).
Qed.

(** A spelling that passes the length guard and has the hash of a
    registered keyword is given the type and category of this keyword. *)
Lemma from_keyword_same_hash s K TYPE CAT :
  NoDup (Keyword.labels murmur3_x86_32 N19_HIR_KEYWORDS) ->
  Str.size s <= 15 ->
  In (K, TYPE, CAT) N19_HIR_KEYWORDS ->
  murmur3_x86_32 s Keyword.seed = murmur3_x86_32 K Keyword.seed ->
  result (TokenType.from_keyword murmur3_x86_32 N19_HIR_KEYWORDS s)
    = Some TYPE /\
  result (TokenCategory.from_keyword murmur3_x86_32 N19_HIR_KEYWORDS s)
    = Some CAT.
Proof.
  intros Hnd Hs Hin Hhash.
  rewrite TokenType_from_keyword_switch, TokenCategory_from_keyword_switch
    by assumption.
  rewrite Hhash.
  change (murmur3_x86_32 K Keyword.seed)
    with (Keyword._mm32 murmur3_x86_32 K).
  now rewrite !(cases_label _ K TYPE CAT).
Qed.

(** A spelling that is too long, or whose hash is no case label, is given
    nothing. *)
Lemma from_keyword_no_label s :
  15 < Str.size s \/
  ~ In (murmur3_x86_32 s Keyword.seed)
       (Keyword.labels murmur3_x86_32 N19_HIR_KEYWORDS) ->
  result (TokenType.from_keyword murmur3_x86_32 N19_HIR_KEYWORDS s) = None /\
  result (TokenCategory.from_keyword murmur3_x86_32 N19_HIR_KEYWORDS s)
    = None.
Proof.
  intros Hmiss.
  destruct (Z.ltb_spec 15 (Str.size s)) as [Hlong | Hshort].
  - now destruct (from_keyword_too_long s Hlong) as [-> ->].
  - destruct Hmiss as [Hlong | Hout]; [lia |].
    rewrite TokenType_from_keyword_switch, TokenCategory_from_keyword_switch
      by assumption.
    now rewrite !cases_default.
Qed.

(** What the lookups do: they go by the hash of the spelling alone.  For a
    keyword list whose spellings have at most 15 bytes and whose case labels
    are pairwise distinct, a registered spelling gets its registered type
    and category; a spelling that is longer than 15 bytes or whose hash is
    no case label gets [Nothing]; and a spelling of at most 15 bytes with
    the hash of a registered keyword gets the type and category of that
    keyword, registered or not. *)
Theorem from_keyword_by_hash :
  (forall K, In K (Keyword.spellings N19_HIR_KEYWORDS) -> Str.size K <= 15) ->
  NoDup (Keyword.labels murmur3_x86_32 N19_HIR_KEYWORDS) ->
  (forall K TYPE CAT, In (K, TYPE, CAT) N19_HIR_KEYWORDS ->
     result (TokenType.from_keyword murmur3_x86_32 N19_HIR_KEYWORDS K)
       = Some TYPE /\
     result (TokenCategory.from_keyword murmur3_x86_32 N19_HIR_KEYWORDS K)
       = Some CAT) /\
  (forall s,
     15 < Str.size s \/
     ~ In (murmur3_x86_32 s Keyword.seed)
          (Keyword.labels murmur3_x86_32 N19_HIR_KEYWORDS) ->
     result (TokenType.from_keyword murmur3_x86_32 N19_HIR_KEYWORDS s)
       = None /\
     result (TokenCategory.from_keyword murmur3_x86_32 N19_HIR_KEYWORDS s)
       = None) /\
  (forall s K TYPE CAT,
     Str.size s <= 15 ->
     In (K, TYPE, CAT) N19_HIR_KEYWORDS ->
     murmur3_x86_32 s Keyword.seed = murmur3_x86_32 K Keyword.seed ->
     result (TokenType.from_keyword murmur3_x86_32 N19_HIR_KEYWORDS s)
       = Some TYPE /\
     result (TokenCategory.from_keyword murmur3_x86_32 N19_HIR_KEYWORDS s)
       = Some CAT).
Proof.
  intros Hlen Hnd. split; [| split].
  - intros K TYPE CAT Hin.
    apply (from_keyword_same_hash K K TYPE CAT); trivial.
    apply Hlen. now apply (spelling_registered K TYPE CAT).
  - exact from_keyword_no_label.
  - intros s K TYPE CAT Hs Hin Hhash.
    now apply (from_keyword_same_hash s K TYPE CAT).
Qed.

End Keyword_lookup.

Lemma from_keyword_length_guard_witness :
  (result (TokenType.from_keyword Murmur3.murmur3_x86_32
             Sample.N19_HIR_KEYWORDS "sixteen_letters_") = None
   /\ events (TokenType.from_keyword Murmur3.murmur3_x86_32
                Sample.N19_HIR_KEYWORDS "sixteen_letters_") = []) /\
  (result (TokenCategory.from_keyword Murmur3.murmur3_x86_32
             Sample.N19_HIR_KEYWORDS "sixteen_letters_") = None
   /\ events (TokenCategory.from_keyword Murmur3.murmur3_x86_32
                Sample.N19_HIR_KEYWORDS "sixteen_letters_") = []).
Proof.
  apply (from_keyword_length_guard Murmur3.murmur3_x86_32
           Sample.N19_HIR_KEYWORDS "sixteen_letters_").
  vm_compute. reflexivity.
Defined.

Lemma Sample_keywords_short :
  forall K, In K (Keyword.spellings Sample.N19_HIR_KEYWORDS) ->
  Str.size K <= 15.
Proof.
  intros K [<- | [<- | [<- | []]]]; vm_compute; discriminate.
Defined.

Lemma Sample_labels_distinct :
  NoDup (Keyword.labels Murmur3.murmur3_x86_32 Sample.N19_HIR_KEYWORDS).
Proof.
  vm_compute. repeat constructor; simpl; intuition discriminate.
Defined.

Lemma from_keyword_by_hash_witness :
  (result (TokenType.from_keyword Murmur3.murmur3_x86_32
             Sample.N19_HIR_KEYWORDS "while")
     = Some (Sample.TokenType_enumerator "While") /\
   result (TokenCategory.from_keyword Murmur3.murmur3_x86_32
             Sample.N19_HIR_KEYWORDS "while")
     = Some (Sample.TokenCategory_enumerator "Keyword")) /\
  (result (TokenType.from_keyword Murmur3.murmur3_x86_32
             Sample.N19_HIR_KEYWORDS "whale") = None /\
   result (TokenCategory.from_keyword Murmur3.murmur3_x86_32
             Sample.N19_HIR_KEYWORDS "whale") = None) /\
  (result (TokenType.from_keyword Murmur3.murmur3_x86_32
             Sample.N19_HIR_KEYWORDS "aaknBmcT")
     = Some (Sample.TokenType_enumerator "While") /\
   result (TokenCategory.from_keyword Murmur3.murmur3_x86_32
             Sample.N19_HIR_KEYWORDS "aaknBmcT")
     = Some (Sample.TokenCategory_enumerator "Keyword")).
Proof.
  destruct (from_keyword_by_hash Murmur3.murmur3_x86_32
              Sample.N19_HIR_KEYWORDS Sample_keywords_short
              Sample_labels_distinct) as (Hreg & Hmiss & Hhit).
  split; [| split].
  - apply (Hreg "while"). simpl. tauto.
  - apply (Hmiss "whale"). right. vm_compute. intuition discriminate.
  - apply (Hhit "aaknBmcT" "while").
    + vm_compute. discriminate.
    + simpl. tauto.
    + vm_compute. reflexivity.
Defined.

(** C2, on the code: the spelling "aasnqCMk" is not registered, it has the
    hash of the keyword "return", and both lookups take it for this keyword
    instead of returning [Nothing], as the claim and the comments of both
    functions say they do for a keyword that does not exist. *)
Lemma from_keyword_collision :
  ~ In "aasnqCMk" (Keyword.spellings Sample.N19_HIR_KEYWORDS) /\
  Murmur3.murmur3_x86_32 "aasnqCMk" Keyword.seed
    = Murmur3.murmur3_x86_32 "return" Keyword.seed /\
  result (TokenType.from_keyword Murmur3.murmur3_x86_32
            Sample.N19_HIR_KEYWORDS "aasnqCMk")
    = Some (Sample.TokenType_enumerator "Return") /\
  result (TokenCategory.from_keyword Murmur3.murmur3_x86_32
            Sample.N19_HIR_KEYWORDS "aasnqCMk")
    = Some (Sample.TokenCategory_enumerator "Keyword").
Proof.
  split.
  - simpl. intuition discriminate.
  - repeat split; vm_compute; reflexivity.
Qed.

(** The hash on published test vectors of MurmurHash3 x86_32. *)
Example murmur3_test_vectors :
  Murmur3.murmur3_x86_32 "" 0 = 0 /\
  Murmur3.murmur3_x86_32 "" 1 = 0x514e28b7 /\
  Murmur3.murmur3_x86_32 "abc" 0 = 0xb3dd93fa /\
  Murmur3.murmur3_x86_32 "test" 0x9747b28c = 0x704b81dc /\
  Murmur3.murmur3_x86_32 "Hello, world!" 0x9747b28c = 0x24884cba /\
  Murmur3.murmur3_x86_32 "The quick brown fox jumps over the lazy dog"
    0x9747b28c = 0x2fa826cd.
Proof. repeat split; vm_compute; reflexivity. Qed.

(** ** Every keyword has colliding spellings

    With the hash of the description, the collision above is no accident
    of one keyword list: every 32-bit value is the hash of a spelling of
    four bytes and of one of eight bytes, so every registered keyword
    shares its hash with a spelling that is not registered. *)


























(** ** TokenCategory: the rendering of a mask *)

Section TokenCategory_to_string.

Variable enumerator : string -> N.
Variable N19_TOKEN_CATEGORY_LIST : list string.

(** What the expansion of the list appends to [buff]: each set flag followed
    by the separator. *)
Lemma expand_X_appends value cats : forall buff,
  let set := TokenCategory.set_flags enumerator cats value in
  (set = [] -> TokenCategory.expand_X enumerator value cats buff = buff) /\
  (set <> [] ->
   TokenCategory.expand_X enumerator value cats buff
   = (buff ++ (String.concat " | " set ++ " | "))%string).
Proof.
  induction cats as [| CAT rest IH]; intros buff; simpl.
  - split; [reflexivity | congruence].
  - unfold TokenCategory.X.
    destruct (N.land value (enumerator CAT) =? 0)%N; simpl.
    + apply IH.
    + destruct (IH (buff ++ (CAT ++ " | "))%string) as [Hnone Hsome].
      fold (TokenCategory.set_flags enumerator rest value) in *.
      split; [congruence | intros _].
      destruct (TokenCategory.set_flags enumerator rest value)
        as [| CAT' set'] eqn:E.
      * rewrite Hnone by reflexivity. reflexivity.
      * rewrite Hsome by congruence. now rewrite !append_assoc.
Qed.

(** The trailing separator is found and erased. *)
Lemma trim_separator (joined : string) :
  let buff := (joined ++ " | ")%string in
  negb (Str.empty buff)
  && Str.is_char "|" (Str.at_ buff (Str.size buff - 2)) = true /\
  Str.erase buff (Str.size buff - 3) = joined.
Proof.
  simpl. unfold Str.empty, Str.at_, Str.erase, Str.size.
  rewrite length_append. simpl String.length.
  split.
  - apply andb_true_iff. split.
    + apply negb_true_iff, Z.eqb_neq. lia.
    + destruct (Z.ltb_spec (Z.of_nat (String.length joined + 3) - 2) 0);
        [lia |].
      replace (Z.to_nat (Z.of_nat (String.length joined + 3) - 2))
        with (String.length joined + 1)%nat by lia.
      now rewrite get_append_r.
  - replace (Z.to_nat (Z.of_nat (String.length joined + 3) - 3))
      with (String.length joined) by lia.
    apply substring_append_l.
Qed.

Lemma to_string_no_flag value :
  TokenCategory.set_flags enumerator N19_TOKEN_CATEGORY_LIST value = [] ->
  TokenCategory.to_string enumerator N19_TOKEN_CATEGORY_LIST value
  = "NonCategorical".
Proof.
  intros Hnone. unfold TokenCategory.to_string.
  destruct (expand_X_appends value N19_TOKEN_CATEGORY_LIST "") as [-> _];
    [reflexivity | assumption].
Qed.

Lemma to_string_joined value :
  TokenCategory.set_flags enumerator N19_TOKEN_CATEGORY_LIST value <> [] ->
  TokenCategory.to_string enumerator N19_TOKEN_CATEGORY_LIST value
  = String.concat " | "
      (TokenCategory.set_flags enumerator N19_TOKEN_CATEGORY_LIST value).
Proof.
  intros Hsome. unfold TokenCategory.to_string.
  destruct (expand_X_appends value N19_TOKEN_CATEGORY_LIST "") as [_ ->];
    [| assumption].
  cbv zeta. cbn [String.append].
  destruct (trim_separator
    (String.concat " | "
       (TokenCategory.set_flags enumerator N19_TOKEN_CATEGORY_LIST value)))
    as [-> ->].
  reflexivity.
Qed.

Lemma count_occ_filter (f : string -> bool) (l : list string) (x : string) :
  NoDup l -> In x l ->
  count_occ string_dec (filter f l) x = if f x then 1%nat else 0%nat.
Proof.
  induction l as [| y l IH]; intros Hnd Hin; [contradiction |].
  inversion Hnd as [| y' l' Hfresh Hrest]; subst.
  destruct Hin as [-> | Hin].
  - assert (Hzero : count_occ string_dec (filter f l) x = 0%nat).
    { apply count_occ_not_In. intros H. apply filter_In in H. tauto. }
    simpl. destruct (f x); simpl.
    + destruct (string_dec x x); [now rewrite Hzero | contradiction].
    + exact Hzero.
  - simpl. destruct (f y); simpl.
    + destruct (string_dec y x) as [-> | _]; [contradiction |]. now apply IH.
    + now apply IH.
Qed.

(** C7: on the mask with no bit set [to_string] returns "NonCategorical";
    on a mask with one or more flags of the list set it returns the names of
    the set flags joined by " | ", the trailing separator trimmed; the
    joined names are exactly the set flags, each once. *)
Theorem TokenCategory_to_string_flags :
  NoDup N19_TOKEN_CATEGORY_LIST ->
  TokenCategory.to_string enumerator N19_TOKEN_CATEGORY_LIST 0
    = "NonCategorical" /\
  (forall value,
     TokenCategory.set_flags enumerator N19_TOKEN_CATEGORY_LIST value <> [] ->
     TokenCategory.to_string enumerator N19_TOKEN_CATEGORY_LIST value
     = String.concat " | "
         (TokenCategory.set_flags enumerator N19_TOKEN_CATEGORY_LIST value)) /\
  (forall value CAT,
     In CAT N19_TOKEN_CATEGORY_LIST ->
     count_occ string_dec
       (TokenCategory.set_flags enumerator N19_TOKEN_CATEGORY_LIST value) CAT
     = if (N.land value (enumerator CAT) =? 0)%N then 0%nat else 1%nat) /\
  (forall value CAT,
     In CAT (TokenCategory.set_flags enumerator N19_TOKEN_CATEGORY_LIST value)
     -> In CAT N19_TOKEN_CATEGORY_LIST).
Proof.
  intros Hnd. repeat apply conj.
  - apply to_string_no_flag. unfold TokenCategory.set_flags.
    induction N19_TOKEN_CATEGORY_LIST as [| CAT rest IH]; simpl.
    + reflexivity.
    + inversion Hnd; subst. now apply IH.
  - exact to_string_joined.
  - intros value CAT Hin. unfold TokenCategory.set_flags.
    rewrite count_occ_filter by assumption.
    now destruct (N.land value (enumerator CAT) =? 0)%N.
  - intros value CAT Hin. unfold TokenCategory.set_flags in Hin.
    apply filter_In in Hin. tauto.
Qed.

End TokenCategory_to_string.

Lemma Sample_categories_distinct : NoDup Sample.N19_TOKEN_CATEGORY_LIST.
Proof.
  unfold Sample.N19_TOKEN_CATEGORY_LIST.
  repeat constructor; simpl; intuition discriminate.
Defined.

Lemma TokenCategory_to_string_flags_witness :
  TokenCategory.to_string Sample.TokenCategory_enumerator
    Sample.N19_TOKEN_CATEGORY_LIST 0 = "NonCategorical" /\
  TokenCategory.to_string Sample.TokenCategory_enumerator
    Sample.N19_TOKEN_CATEGORY_LIST 5 = "Keyword | Assignment" /\
  count_occ string_dec
    (TokenCategory.set_flags Sample.TokenCategory_enumerator
       Sample.N19_TOKEN_CATEGORY_LIST 5) "Assignment" = 1%nat /\
  In "Keyword" Sample.N19_TOKEN_CATEGORY_LIST.
Proof.
  destruct (TokenCategory_to_string_flags Sample.TokenCategory_enumerator
              Sample.N19_TOKEN_CATEGORY_LIST Sample_categories_distinct)
    as (Hzero & Hjoined & Honce & Hlisted).
  split; [exact Hzero |]. split; [| split].
  - apply (Hjoined 5%N). vm_compute. discriminate.
  - apply (Honce 5%N "Assignment"). simpl. tauto.
  - apply (Hlisted 5%N "Keyword"). simpl. tauto.
Defined.

(** * Further properties of the token layer *)

(** ** Token::value *)

Lemma length_string_of_list_byte (bytes : list byte) :
  String.length (string_of_list_byte bytes) = List.length bytes.
Proof.
  unfold string_of_list_byte.
  induction bytes as [| b bytes IH]; simpl; [reflexivity | now rewrite IH].
Qed.

Lemma string_of_list_byte_app (l1 l2 : list byte) :
  string_of_list_byte (l1 ++ l2)
  = (string_of_list_byte l1 ++ string_of_list_byte l2)%string.
Proof.
  unfold string_of_list_byte.
  induction l1 as [| b l1 IH]; simpl; [reflexivity | now rewrite IH].
Qed.

Lemma firstn_add {A : Type} (n m : nat) (l : list A) :
  firstn (n + m) l = firstn n l ++ firstn m (skipn n l).
Proof.
  revert l. induction n as [| n IH]; intros l; simpl; [reflexivity |].
  destruct l as [| a l]; simpl.
  - now rewrite firstn_nil.
  - now rewrite IH.
Qed.

(** What [value] does, by the four ways it can end. *)
Lemma value_cases (tok : Token.t) (lxr : Lexer) :
  Token.in_range tok ->
  let size := Z.of_nat (List.length (get_bytes lxr)) in
  (Token.len_ tok = 0 /\ Token.value tok lxr = Returned None) \/
  (Token.len_ tok <> 0 /\
   (size <= Token.pos_ tok \/
    size <= uint32 (Token.pos_ tok + Token.len_ tok - 1)) /\
   exists msg, Token.value tok lxr = Panicked msg) \/
  (Token.len_ tok <> 0 /\
   Token.pos_ tok + Token.len_ tok <= size /\
   Token.value tok lxr
   = Returned
       (Some (string_of_list_byte
                (firstn (Z.to_nat (Token.len_ tok))
                   (skipn (Z.to_nat (Token.pos_ tok)) (get_bytes lxr)))))) \/
  (Token.len_ tok <> 0 /\
   Token.pos_ tok < size < Token.pos_ tok + Token.len_ tok /\
   Token.value tok lxr = Undefined).
Proof.
  intros Hrange size.
  destruct (Z.eq_dec (Token.len_ tok) 0) as [Hz | Hnz].
  { left. split; [assumption |]. unfold Token.value. now rewrite Hz. }
  right.
  destruct (Z_le_gt_dec size (Token.pos_ tok)) as [Hp | Hp].
  { left. split; [assumption |]. split; [now left |].
    apply value_assert_fails; [assumption | now left]. }
  destruct (Z_le_gt_dec size (uint32 (Token.pos_ tok + Token.len_ tok - 1)))
    as [Hq | Hq].
  { left. split; [assumption |]. split; [now right |].
    apply value_assert_fails; [assumption | now right]. }
  right.
  destruct (Z_le_gt_dec (Token.pos_ tok + Token.len_ tok) size) as [Hs | Hs].
  { left. split; [assumption |]. split; [assumption |].
    now apply value_in_bounds. }
  right. split; [assumption |]. split; [fold size; lia |].
  unfold Token.value, ASSERT.
  destruct (Z.eqb_spec (Token.len_ tok) 0) as [E | _]; [contradiction |].
  fold size.
  destruct (Z.ltb_spec (Token.pos_ tok) size); [| lia].
  destruct (Z.ltb_spec (uint32 (Token.pos_ tok + Token.len_ tok - 1)) size);
    [| lia].
  rewrite value_loop_overruns; [reflexivity |].
  rewrite length_skipn. fold size. destruct Hrange. lia.
Qed.

(** X1: [value] returns [Nothing] exactly for the tokens of length zero:
    for every other token it returns a lexeme, or does not return. *)
Theorem value_absent_iff (tok : Token.t) (lxr : Lexer) :
  Token.value tok lxr = Returned None <-> Token.len_ tok = 0.
Proof.
  split.
  - intros Hnone.
    destruct (Z.eq_dec (Token.len_ tok) 0) as [Hz | Hnz]; [assumption |].
    exfalso. revert Hnone. unfold Token.value, ASSERT.
    destruct (Z.eqb_spec (Token.len_ tok) 0) as [E | _]; [contradiction |].
    destruct (_ <? _); [| discriminate].
    destruct (_ <? _); [| discriminate].
    destruct (Token.value_loop _ _ _ _); discriminate.
  - intros Hz. unfold Token.value. now rewrite Hz.
Qed.

(** X2: when [value] returns a lexeme, the span of the token lies in the
    buffer, the lexeme has exactly [len_] bytes and is not empty. *)
Theorem value_returns_only_in_bounds (tok : Token.t) (lxr : Lexer)
  (ret : string) :
  Token.in_range tok ->
  Token.value tok lxr = Returned (Some ret) ->
  Token.pos_ tok + Token.len_ tok <= Z.of_nat (List.length (get_bytes lxr)) /\
  Str.size ret = Token.len_ tok /\
  ret <> "".
Proof.
  intros Hrange Hret.
  destruct (value_cases tok lxr Hrange)
    as [[_ H] | [(_ & _ & msg & H) | [(Hnz & Hs & H) | (_ & _ & H)]]];
    rewrite H in Hret; try discriminate Hret.
  inversion Hret as [Heq]. clear Hret H.
  assert (Hsize : Str.size
            (string_of_list_byte
               (firstn (Z.to_nat (Token.len_ tok))
                  (skipn (Z.to_nat (Token.pos_ tok)) (get_bytes lxr))))
          = Token.len_ tok).
  { unfold Str.size.
    rewrite length_string_of_list_byte, length_firstn, length_skipn.
    destruct Hrange. lia. }
  split; [assumption |]. split; [assumption |].
  intros Hempty. rewrite Hempty in Hsize. unfold Str.size in Hsize.
  simpl in Hsize. congruence.
Qed.

(** X3: the lexemes of two adjacent tokens, joined, are the lexeme of the
    token that spans both. *)
Theorem value_adjacent (tok1 tok2 tok : Token.t) (lxr : Lexer) :
  Token.in_range tok1 -> Token.in_range tok2 -> Token.in_range tok ->
  Token.len_ tok1 <> 0 -> Token.len_ tok2 <> 0 ->
  Token.pos_ tok2 = Token.pos_ tok1 + Token.len_ tok1 ->
  Token.pos_ tok = Token.pos_ tok1 ->
  Token.len_ tok = Token.len_ tok1 + Token.len_ tok2 ->
  Token.pos_ tok + Token.len_ tok <= Z.of_nat (List.length (get_bytes lxr)) ->
  exists lexeme1 lexeme2,
    Token.value tok1 lxr = Returned (Some lexeme1) /\
    Token.value tok2 lxr = Returned (Some lexeme2) /\
    Token.value tok lxr = Returned (Some (lexeme1 ++ lexeme2)%string).
Proof.
  intros [Hp1 Hl1] [Hp2 Hl2] [Hp Hl] Hnz1 Hnz2 Hpos2 Hpos Hlen Hspan.
  do 2 eexists. split; [| split].
  - apply value_in_bounds; [split; assumption | assumption | lia].
  - apply value_in_bounds; [split; assumption | assumption | lia].
  - rewrite value_in_bounds by (try split; try assumption; lia).
    rewrite <- string_of_list_byte_app. do 3 f_equal.
    rewrite Hlen, Hpos, Hpos2, !Z2Nat.inj_add by lia.
    rewrite firstn_add, skipn_skipn.
    now rewrite (Nat.add_comm (Z.to_nat (Token.len_ tok1))).
Qed.

(** X4: on an empty buffer every token of nonzero length fails the first
    assertion, [pos_ < bytes.size()]: [value] terminates the process there,
    before the second assertion and the loop. *)
Theorem value_empty_buffer (tok : Token.t) (lxr : Lexer) :
  get_bytes lxr = [] ->
  0 <= Token.pos_ tok ->
  Token.len_ tok <> 0 ->
  Token.value tok lxr = Panicked "pos_ < bytes.size()".
Proof.
  intros Hempty Hpos Hnz. unfold Token.value, ASSERT.
  destruct (Z.eqb_spec (Token.len_ tok) 0) as [E | _]; [contradiction |].
  rewrite Hempty. simpl List.length.
  destruct (Z.ltb_spec (Token.pos_ tok) (Z.of_nat 0)) as [H | _];
    [simpl in H; lia | reflexivity].
Qed.

(** ** Token::format *)

Section Token_format.

Variable TokenType : string -> Z.
Variable N19_TOKEN_TYPE_LIST : list (string * string).
Variable TokenCategory : string -> N.
Variable N19_TOKEN_CATEGORY_LIST : list string.
Variable fmt : string -> list FmtArg -> string.

(** X5: [format] ends the way [value] ends: it terminates the process with
    the same failed assertion, reads outside the buffer when [value] does,
    and returns a text exactly when [value] returns. *)
Theorem format_ends_as_value (tok : Token.t) (lxr : Lexer) :
  (forall msg,
     Token.format TokenType N19_TOKEN_TYPE_LIST TokenCategory
       N19_TOKEN_CATEGORY_LIST fmt tok lxr = Panicked msg <->
     Token.value tok lxr = Panicked msg) /\
  (Token.format TokenType N19_TOKEN_TYPE_LIST TokenCategory
     N19_TOKEN_CATEGORY_LIST fmt tok lxr = Undefined <->
   Token.value tok lxr = Undefined) /\
  ((exists text,
      Token.format TokenType N19_TOKEN_TYPE_LIST TokenCategory
        N19_TOKEN_CATEGORY_LIST fmt tok lxr = Returned text) <->
   (exists lexeme, Token.value tok lxr = Returned lexeme)).
Proof.
  unfold Token.format.
  destruct (Token.value tok lxr) as [lexeme | msg' |]; cbv zeta.
  - split; [| split].
    + intros msg. split; discriminate.
    + split; discriminate.
    + split; intros _; eexists; reflexivity.
  - split; [| split].
    + intros msg. split; intros H; inversion H; reflexivity.
    + split; discriminate.
    + split; intros [x H]; discriminate H.
  - split; [| split].
    + intros msg. split; discriminate.
    + tauto.
    + split; intros [x H]; discriminate H.
Qed.

(** X6: for a token of length zero, whatever the buffer, and for a token
    whose span lies in the buffer, [format] returns its four pieces in
    order: the type name, the lexeme (the placeholder N/A when there is
    none), line and position, the category. *)
Theorem format_text (tok : Token.t) (lxr : Lexer) :
  Token.in_range tok ->
  Token.len_ tok = 0 \/
  Token.pos_ tok + Token.len_ tok <= Z.of_nat (List.length (get_bytes lxr)) ->
  Token.format TokenType N19_TOKEN_TYPE_LIST TokenCategory
    N19_TOKEN_CATEGORY_LIST fmt tok lxr
  = Returned
      (fmt "{:<12}: "
         [FmtString
            (TokenType.to_string TokenType N19_TOKEN_TYPE_LIST
               (Token.type_ tok))]
       ++ fmt (Token.quote ++ "{}" ++ Token.quote ++ " -- ")
            [FmtString
               (if (Token.len_ tok =? 0)%Z then "N/A"
                else string_of_list_byte
                       (firstn (Z.to_nat (Token.len_ tok))
                          (skipn (Z.to_nat (Token.pos_ tok))
                             (get_bytes lxr))))]
       ++ fmt "LINE={},POS={} -- "
            [FmtUInt (Token.line_ tok); FmtUInt (Token.pos_ tok)]
       ++ fmt ("{}" ++ Token.newline)
            [FmtString
               (TokenCategory.to_string TokenCategory
                  N19_TOKEN_CATEGORY_LIST (Token.cat_ tok))])%string.
Proof.
  intros Hrange Hspan. unfold Token.format.
  destruct (Z.eqb_spec (Token.len_ tok) 0) as [Hz | Hnz].
  - assert (Hvalue : Token.value tok lxr = Returned None)
      by (unfold Token.value; now rewrite Hz).
    rewrite Hvalue. cbv zeta. simpl Token.value_or.
    now rewrite !append_assoc.
  - destruct Hspan as [Hz | Hspan]; [contradiction |].
    rewrite value_in_bounds by assumption.
    cbv zeta. simpl Token.value_or.
    now rewrite !append_assoc.
Qed.

End Token_format.

Lemma format_text_witness :
  SampleFmt.format SampleFmt.plus_eq Sample.lexer
  = Returned
      (SampleFmt.fmt "{:<12}: " [FmtString "PlusEq"]
       ++ SampleFmt.fmt (Token.quote ++ "{}" ++ Token.quote ++ " -- ")
            [FmtString "+="]
       ++ SampleFmt.fmt "LINE={},POS={} -- " [FmtUInt 1; FmtUInt 2]
       ++ SampleFmt.fmt ("{}" ++ Token.newline)
            [FmtString "Assignment | Arithmetic"])%string.
Proof.
  apply (format_text Sample.TokenType_enumerator Sample.N19_TOKEN_TYPE_LIST
           Sample.TokenCategory_enumerator Sample.N19_TOKEN_CATEGORY_LIST
           SampleFmt.fmt SampleFmt.plus_eq Sample.lexer).
  - unfold Token.in_range. simpl. lia.
  - right. simpl. lia.
Defined.

Lemma value_returns_only_in_bounds_witness :
  Token.pos_ SampleFmt.plus_eq + Token.len_ SampleFmt.plus_eq
    <= Z.of_nat (List.length (get_bytes Sample.lexer)) /\
  Str.size "+=" = Token.len_ SampleFmt.plus_eq /\
  "+=" <> "".
Proof.
  apply (value_returns_only_in_bounds SampleFmt.plus_eq Sample.lexer "+=").
  - unfold Token.in_range. simpl. lia.
  - reflexivity.
Defined.

Lemma value_adjacent_witness :
  exists lexeme1 lexeme2,
    Token.value
      (Token.illegal Sample.TokenType_enumerator
         Sample.TokenCategory_enumerator 0 2 1) Sample.lexer
    = Returned (Some lexeme1) /\
    Token.value SampleFmt.plus_eq Sample.lexer = Returned (Some lexeme2) /\
    Token.value
      (Token.illegal Sample.TokenType_enumerator
         Sample.TokenCategory_enumerator 0 4 1) Sample.lexer
    = Returned (Some (lexeme1 ++ lexeme2)%string).
Proof.
  apply (value_adjacent
           (Token.illegal Sample.TokenType_enumerator
              Sample.TokenCategory_enumerator 0 2 1)
           SampleFmt.plus_eq
           (Token.illegal Sample.TokenType_enumerator
              Sample.TokenCategory_enumerator 0 4 1) Sample.lexer);
    unfold Token.in_range; simpl; lia.
Defined.

Lemma value_empty_buffer_witness :
  Token.value SampleFmt.plus_eq {| get_bytes := [] |}
  = Panicked "pos_ < bytes.size()".
Proof.
  apply (value_empty_buffer SampleFmt.plus_eq {| get_bytes := [] |}).
  - reflexivity.
  - simpl. lia.
  - simpl. lia.
Defined.

(** ** from_keyword: what the lookups can answer *)

Section Keyword_answers.

Variable murmur3_x86_32 : string -> Z -> Z.
Variable N19_HIR_KEYWORDS : list (string * Z * N).

(** A switch that returns does so from an entry whose label is the hash. *)
Lemma cases_return {A : Type} (KEYWORD_X : string -> Z -> N -> A) h keywords
  v :
  Keyword.cases murmur3_x86_32 KEYWORD_X h keywords = Return v ->
  exists NAME TYPE CAT,
    In (NAME, TYPE, CAT) keywords /\
    h = Keyword._mm32 murmur3_x86_32 NAME /\
    v = KEYWORD_X NAME TYPE CAT.
Proof.
  induction keywords as [| [[NAME TYPE] CAT] rest IH]; simpl; intros Hret.
  - discriminate Hret.
  - destruct (Z.eqb_spec h (Keyword._mm32 murmur3_x86_32 NAME)) as [E | _].
    + inversion Hret; subst. exists NAME, TYPE, CAT. auto.
    + destruct (IH Hret) as (N' & T' & C' & Hin & Hh & Hv).
      exists N', T', C'. auto.
Qed.

(** The two switches return from the same entry, the first whose label is
    the hash. *)
Lemma cases_same_entry h keywords TYPE CAT :
  Keyword.cases murmur3_x86_32 (fun _ TYPE _ => TYPE) h keywords
    = Return TYPE ->
  Keyword.cases murmur3_x86_32 (fun _ _ CAT => CAT) h keywords
    = Return CAT ->
  exists NAME,
    In (NAME, TYPE, CAT) keywords /\ h = Keyword._mm32 murmur3_x86_32 NAME.
Proof.
  induction keywords as [| [[NAME' TYPE'] CAT'] rest IH]; simpl;
    intros Htype Hcat.
  - discriminate Htype.
  - destruct (Z.eqb_spec h (Keyword._mm32 murmur3_x86_32 NAME')) as [E | _].
    + inversion Htype; inversion Hcat; subst. exists NAME'. auto.
    + destruct (IH Htype Hcat) as (NAME & Hin & Hh). exists NAME. auto.
Qed.

(** An answer is only given to a spelling that passed the length guard. *)
Lemma answered_is_short (s : string) :
  result (TokenType.from_keyword murmur3_x86_32 N19_HIR_KEYWORDS s) <> None \/
  result (TokenCategory.from_keyword murmur3_x86_32 N19_HIR_KEYWORDS s)
    <> None ->
  Str.size s <= 15.
Proof.
  intros Hres.
  destruct (Z.ltb_spec 15 (Str.size s)) as [H | H]; [| assumption].
  destruct (from_keyword_too_long murmur3_x86_32 N19_HIR_KEYWORDS s H)
    as [Htype Hcat].
  rewrite Htype, Hcat in Hres. simpl in Hres. tauto.
Qed.

(** X7: a lookup never answers with anything but the type, or the category,
    of a registered keyword whose hash is the hash of the given spelling,
    and only for spellings of at most 15 bytes. *)
Theorem from_keyword_registered_only (s : string) :
  (forall TYPE,
     result (TokenType.from_keyword murmur3_x86_32 N19_HIR_KEYWORDS s)
       = Some TYPE ->
     Str.size s <= 15 /\
     exists K CAT,
       In (K, TYPE, CAT) N19_HIR_KEYWORDS /\
       murmur3_x86_32 s Keyword.seed = murmur3_x86_32 K Keyword.seed) /\
  (forall CAT,
     result (TokenCategory.from_keyword murmur3_x86_32 N19_HIR_KEYWORDS s)
       = Some CAT ->
     Str.size s <= 15 /\
     exists K TYPE,
       In (K, TYPE, CAT) N19_HIR_KEYWORDS /\
       murmur3_x86_32 s Keyword.seed = murmur3_x86_32 K Keyword.seed).
Proof.
  split.
  - intros TYPE Hres.
    assert (Hs : Str.size s <= 15).
    { apply answered_is_short. left. congruence. }
    split; [assumption |].
    rewrite TokenType_from_keyword_switch in Hres by assumption.
    destruct (Keyword.cases _ _ _ _) as [| v] eqn:E; [discriminate Hres |].
    inversion Hres; subst.
    destruct (cases_return _ _ _ _ E) as (K & T & C & Hin & Hh & ->).
    exists K, C. auto.
  - intros CAT Hres.
    assert (Hs : Str.size s <= 15).
    { apply answered_is_short. right. congruence. }
    split; [assumption |].
    rewrite TokenCategory_from_keyword_switch in Hres by assumption.
    destruct (Keyword.cases _ _ _ _) as [| v] eqn:E; [discriminate Hres |].
    inversion Hres; subst.
    destruct (cases_return _ _ _ _ E) as (K & T & C & Hin & Hh & ->).
    exists K, T. auto.
Qed.

(** X8: the type and the category that the two lookups return for one
    spelling belong to one entry of the keyword list. *)
Theorem from_keyword_same_entry (s : string) (TYPE : Z) (CAT : N) :
  result (TokenType.from_keyword murmur3_x86_32 N19_HIR_KEYWORDS s)
    = Some TYPE ->
  result (TokenCategory.from_keyword murmur3_x86_32 N19_HIR_KEYWORDS s)
    = Some CAT ->
  exists K,
    In (K, TYPE, CAT) N19_HIR_KEYWORDS /\
    murmur3_x86_32 s Keyword.seed = murmur3_x86_32 K Keyword.seed.
Proof.
  intros Htype Hcat.
  assert (Hs : Str.size s <= 15).
  { apply answered_is_short. left. congruence. }
  rewrite TokenType_from_keyword_switch in Htype by assumption.
  rewrite TokenCategory_from_keyword_switch in Hcat by assumption.
  destruct (Keyword.cases murmur3_x86_32 (fun _ TYPE _ => TYPE) _ _)
    as [| T] eqn:ET; [discriminate Htype |].
  destruct (Keyword.cases murmur3_x86_32 (fun _ _ CAT => CAT) _ _)
    as [| C] eqn:EC; [discriminate Hcat |].
  inversion Htype; inversion Hcat; subst.
  exact (cases_same_entry _ _ _ _ ET EC).
Qed.

(** X9: the lookups see a spelling only through its hash: two spellings of
    at most 15 bytes with the same hash get the same answers, whatever the
    keyword list. *)
Theorem from_keyword_hash_only (s1 s2 : string) :
  Str.size s1 <= 15 -> Str.size s2 <= 15 ->
  murmur3_x86_32 s1 Keyword.seed = murmur3_x86_32 s2 Keyword.seed ->
  result (TokenType.from_keyword murmur3_x86_32 N19_HIR_KEYWORDS s1)
  = result (TokenType.from_keyword murmur3_x86_32 N19_HIR_KEYWORDS s2) /\
  result (TokenCategory.from_keyword murmur3_x86_32 N19_HIR_KEYWORDS s1)
  = result (TokenCategory.from_keyword murmur3_x86_32 N19_HIR_KEYWORDS s2).
Proof.
  intros H1 H2 Hhash.
  rewrite !TokenType_from_keyword_switch, !TokenCategory_from_keyword_switch
    by assumption.
  now rewrite Hhash.
Qed.

End Keyword_answers.

Lemma from_keyword_registered_only_witness :
  (Str.size "while" <= 15 /\
   exists K CAT,
     In (K, Sample.TokenType_enumerator "While", CAT)
       Sample.N19_HIR_KEYWORDS /\
     Murmur3.murmur3_x86_32 "while" Keyword.seed
     = Murmur3.murmur3_x86_32 K Keyword.seed) /\
  (Str.size "while" <= 15 /\
   exists K TYPE,
     In (K, TYPE, Sample.TokenCategory_enumerator "Keyword")
       Sample.N19_HIR_KEYWORDS /\
     Murmur3.murmur3_x86_32 "while" Keyword.seed
     = Murmur3.murmur3_x86_32 K Keyword.seed).
Proof.
  destruct (from_keyword_registered_only Murmur3.murmur3_x86_32
              Sample.N19_HIR_KEYWORDS "while") as [Htype Hcat].
  split.
  - apply Htype. vm_compute. reflexivity.
  - apply Hcat. vm_compute. reflexivity.
Defined.

Lemma from_keyword_same_entry_witness :
  exists K,
    In (K, Sample.TokenType_enumerator "If",
         Sample.TokenCategory_enumerator "Keyword")
      Sample.N19_HIR_KEYWORDS /\
    Murmur3.murmur3_x86_32 "aadxzAXU" Keyword.seed
    = Murmur3.murmur3_x86_32 K Keyword.seed.
Proof.
  apply (from_keyword_same_entry Murmur3.murmur3_x86_32
           Sample.N19_HIR_KEYWORDS "aadxzAXU");
    vm_compute; reflexivity.
Defined.

Lemma from_keyword_hash_only_witness :
  result (TokenType.from_keyword Murmur3.murmur3_x86_32
            Sample.N19_HIR_KEYWORDS "aadxzAXU")
  = result (TokenType.from_keyword Murmur3.murmur3_x86_32
              Sample.N19_HIR_KEYWORDS "if") /\
  result (TokenCategory.from_keyword Murmur3.murmur3_x86_32
            Sample.N19_HIR_KEYWORDS "aadxzAXU")
  = result (TokenCategory.from_keyword Murmur3.murmur3_x86_32
              Sample.N19_HIR_KEYWORDS "if").
Proof.
  apply (from_keyword_hash_only Murmur3.murmur3_x86_32
           Sample.N19_HIR_KEYWORDS "aadxzAXU" "if").
  - vm_compute. discriminate.
  - vm_compute. discriminate.
  - vm_compute. reflexivity.
Defined.

(** ** TokenType: from a value back to its entry *)

Section TokenType_entries.

Variable enumerator : string -> Z.
Variable N19_TOKEN_TYPE_LIST : list (string * string).

(** The switch returns from the first entry whose label is the value. *)
Lemma switch_X_entry (value : Z) (cases : list (string * string)) :
  In value (TokenType.labels enumerator cases) ->
  exists TYPE STR,
    In (TYPE, STR) cases /\ enumerator TYPE = value /\
    forall X, TokenType.switch_X enumerator X value cases = X TYPE STR.
Proof.
  induction cases as [| [TYPE' STR'] rest IH]; simpl; intros Hin.
  - contradiction.
  - destruct (Z.eqb_spec value (enumerator TYPE')) as [E | Hne].
    + exists TYPE', STR'. auto.
    + destruct Hin as [E | Hin]; [congruence |].
      destruct (IH Hin) as (TYPE & STR & H1 & H2 & H3).
      exists TYPE, STR. auto.
Qed.

(** X10: for every value that is an enumerator of the list, the name and
    the spelling returned by [to_string] and [string_repr] are the two
    strings of one entry of the list, and the enumerator of that name is the
    value again. *)
Theorem to_string_of_enumerator (value : Z) :
  In value (TokenType.labels enumerator N19_TOKEN_TYPE_LIST) ->
  In (TokenType.to_string enumerator N19_TOKEN_TYPE_LIST value,
      TokenType.string_repr enumerator N19_TOKEN_TYPE_LIST value)
    N19_TOKEN_TYPE_LIST /\
  enumerator (TokenType.to_string enumerator N19_TOKEN_TYPE_LIST value)
  = value.
Proof.
  intros Hin. unfold TokenType.to_string, TokenType.string_repr.
  destruct (switch_X_entry value N19_TOKEN_TYPE_LIST Hin)
    as (TYPE & STR & Hentry & Hvalue & Hswitch).
  rewrite !Hswitch. auto.
Qed.

(** X11: when no variant of the list is itself named "Unknown", the
    fallback tells the values outside of the enumeration from those inside:
    [to_string] returns "Unknown" exactly for the values that are no
    enumerator of the list. *)
Theorem to_string_unknown_iff (value : Z) :
  (forall TYPE STR, In (TYPE, STR) N19_TOKEN_TYPE_LIST -> TYPE <> "Unknown") ->
  (TokenType.to_string enumerator N19_TOKEN_TYPE_LIST value = "Unknown" <->
   ~ In value (TokenType.labels enumerator N19_TOKEN_TYPE_LIST)).
Proof.
  intros Hnames. split.
  - intros Hunknown Hin.
    destruct (switch_X_entry value N19_TOKEN_TYPE_LIST Hin)
      as (TYPE & STR & Hentry & _ & Hswitch).
    unfold TokenType.to_string in Hunknown. rewrite Hswitch in Hunknown.
    exact (Hnames TYPE STR Hentry Hunknown).
  - intros Hout. unfold TokenType.to_string. now apply switch_X_default.
Qed.

End TokenType_entries.

Lemma Sample_labels_PlusEq :
  In (Sample.TokenType_enumerator "PlusEq")
    (TokenType.labels Sample.TokenType_enumerator Sample.N19_TOKEN_TYPE_LIST).
Proof. vm_compute. tauto. Defined.

Lemma to_string_of_enumerator_witness :
  In (TokenType.to_string Sample.TokenType_enumerator
        Sample.N19_TOKEN_TYPE_LIST (Sample.TokenType_enumerator "PlusEq"),
      TokenType.string_repr Sample.TokenType_enumerator
        Sample.N19_TOKEN_TYPE_LIST (Sample.TokenType_enumerator "PlusEq"))
    Sample.N19_TOKEN_TYPE_LIST /\
  Sample.TokenType_enumerator
    (TokenType.to_string Sample.TokenType_enumerator
       Sample.N19_TOKEN_TYPE_LIST (Sample.TokenType_enumerator "PlusEq"))
  = Sample.TokenType_enumerator "PlusEq".
Proof.
  exact (to_string_of_enumerator Sample.TokenType_enumerator
           Sample.N19_TOKEN_TYPE_LIST (Sample.TokenType_enumerator "PlusEq")
           Sample_labels_PlusEq).
Defined.

Lemma Sample_no_Unknown :
  forall TYPE STR,
    In (TYPE, STR) Sample.N19_TOKEN_TYPE_LIST -> TYPE <> "Unknown".
Proof.
  intros TYPE STR Hin. simpl in Hin.
  repeat (destruct Hin as [Hin | Hin];
          [inversion Hin; subst; discriminate |]).
  contradiction.
Defined.

Lemma to_string_unknown_iff_witness :
  TokenType.to_string Sample.TokenType_enumerator Sample.N19_TOKEN_TYPE_LIST
    77 = "Unknown" <->
  ~ In 77
      (TokenType.labels Sample.TokenType_enumerator
         Sample.N19_TOKEN_TYPE_LIST).
Proof.
  exact (to_string_unknown_iff Sample.TokenType_enumerator
           Sample.N19_TOKEN_TYPE_LIST 77 Sample_no_Unknown).
Defined.

(** ** TokenCategory: masks and their rendering *)

Section TokenCategory_masks.

Variable enumerator : string -> N.
Variable N19_TOKEN_CATEGORY_LIST : list string.

(** The rendering is a function of the set flags. *)
Lemma to_string_by_set_flags (value : N) :
  TokenCategory.to_string enumerator N19_TOKEN_CATEGORY_LIST value
  = match TokenCategory.set_flags enumerator N19_TOKEN_CATEGORY_LIST value
    with
    | [] => "NonCategorical"
    | CAT :: rest => String.concat " | " (CAT :: rest)
    end.
Proof.
  destruct (TokenCategory.set_flags enumerator N19_TOKEN_CATEGORY_LIST value)
    as [| CAT rest] eqn:E.
  - now apply to_string_no_flag.
  - rewrite <- E. apply to_string_joined. rewrite E. discriminate.
Qed.

(** X12: the rendering only looks at the flags of the list: two masks that
    agree on which listed flags they share bits with are rendered the same.
    In particular a mask whose bits belong to no listed flag is rendered
    like the empty mask. *)
Theorem to_string_listed_flags_only (a b : N) :
  (forall CAT, In CAT N19_TOKEN_CATEGORY_LIST ->
     (N.land a (enumerator CAT) = 0 <-> N.land b (enumerator CAT) = 0)%N) ->
  TokenCategory.to_string enumerator N19_TOKEN_CATEGORY_LIST a
  = TokenCategory.to_string enumerator N19_TOKEN_CATEGORY_LIST b.
Proof.
  intros Hagree. rewrite !to_string_by_set_flags.
  replace (TokenCategory.set_flags enumerator N19_TOKEN_CATEGORY_LIST b)
    with (TokenCategory.set_flags enumerator N19_TOKEN_CATEGORY_LIST a);
    [reflexivity |].
  unfold TokenCategory.set_flags. apply filter_ext_in.
  intros CAT Hin. specialize (Hagree CAT Hin). f_equal.
  destruct (N.eqb_spec (N.land a (enumerator CAT)) 0),
    (N.eqb_spec (N.land b (enumerator CAT)) 0); tauto.
Qed.

Lemma filter_nonempty_mono (f g : string -> bool) (l : list string) :
  (forall x, f x = true -> g x = true) ->
  filter f l <> [] -> filter g l <> [].
Proof.
  intros Hfg. induction l as [| x l IH]; simpl; [congruence |].
  destruct (f x) eqn:Ef.
  - rewrite (Hfg x Ef). discriminate.
  - intros Hf. destruct (g x); [discriminate | now apply IH].
Qed.

(** X13: the union of two masks, one of which has a listed flag set, is
    rendered as the flags of the list that either mask has set, each once,
    in the order of the list. *)
Theorem to_string_union (a b : N) :
  TokenCategory.set_flags enumerator N19_TOKEN_CATEGORY_LIST a <> [] \/
  TokenCategory.set_flags enumerator N19_TOKEN_CATEGORY_LIST b <> [] ->
  TokenCategory.to_string enumerator N19_TOKEN_CATEGORY_LIST (N.lor a b)
  = String.concat " | "
      (filter
         (fun CAT =>
            negb (N.land a (enumerator CAT) =? 0)%N
            || negb (N.land b (enumerator CAT) =? 0)%N)
         N19_TOKEN_CATEGORY_LIST).
Proof.
  intros Hsome.
  assert (Hset : TokenCategory.set_flags enumerator N19_TOKEN_CATEGORY_LIST
                   (N.lor a b)
                 = filter
                     (fun CAT =>
                        negb (N.land a (enumerator CAT) =? 0)%N
                        || negb (N.land b (enumerator CAT) =? 0)%N)
                     N19_TOKEN_CATEGORY_LIST).
  { unfold TokenCategory.set_flags. apply filter_ext. intros CAT.
    rewrite N.land_lor_distr_l.
    destruct (N.eqb_spec (N.land a (enumerator CAT)) 0) as [Ea | Ea],
      (N.eqb_spec (N.land b (enumerator CAT)) 0) as [Eb | Eb]; simpl.
    - rewrite Ea, Eb. reflexivity.
    - apply negb_true_iff, N.eqb_neq. rewrite N.lor_eq_0_iff. tauto.
    - apply negb_true_iff, N.eqb_neq. rewrite N.lor_eq_0_iff. tauto.
    - apply negb_true_iff, N.eqb_neq. rewrite N.lor_eq_0_iff. tauto. }
  rewrite <- Hset. apply to_string_joined. rewrite Hset.
  unfold TokenCategory.set_flags in Hsome.
  destruct Hsome as [Ha | Hb].
  - revert Ha. apply filter_nonempty_mono.
    intros CAT ->. reflexivity.
  - revert Hb. apply filter_nonempty_mono.
    intros CAT ->. apply orb_true_r.
Qed.

Lemma filter_only (f : string -> bool) (l : list string) (x : string) :
  NoDup l -> In x l -> f x = true ->
  (forall y, In y l -> y <> x -> f y = false) ->
  filter f l = [x].
Proof.
  induction l as [| y l IH]; intros Hnd Hin Hx Hothers; [contradiction |].
  inversion Hnd as [| y' l' Hfresh Hrest]; subst.
  destruct Hin as [-> | Hin].
  - simpl. rewrite Hx. f_equal.
    assert (Hnone : forall z, In z l -> f z = false).
    { intros z Hz. apply Hothers; [now right |].
      intros ->. contradiction. }
    clear -Hnone. induction l as [| z l IH]; [reflexivity |].
    simpl. rewrite (Hnone z) by now left.
    apply IH. intros w Hw. apply Hnone. now right.
  - assert (Hy : f y = false).
    { apply Hothers; [now left |]. intros E. apply Hfresh. now rewrite E. }
    simpl. rewrite Hy. apply IH; trivial.
    intros z Hz Hne. apply Hothers; [now right | assumption].
Qed.

(** X14: for a list of distinct flags whose masks share no bit, the mask of
    a single listed flag that is not zero is rendered as the name of this
    flag, without separator. *)
Theorem to_string_single_flag (CAT : string) :
  NoDup N19_TOKEN_CATEGORY_LIST ->
  In CAT N19_TOKEN_CATEGORY_LIST ->
  enumerator CAT <> 0%N ->
  (forall CAT', In CAT' N19_TOKEN_CATEGORY_LIST -> CAT' <> CAT ->
     N.land (enumerator CAT) (enumerator CAT') = 0%N) ->
  TokenCategory.to_string enumerator N19_TOKEN_CATEGORY_LIST (enumerator CAT)
  = CAT.
Proof.
  intros Hnd Hin Hnz Hdisjoint.
  rewrite to_string_by_set_flags. unfold TokenCategory.set_flags.
  rewrite (filter_only _ _ CAT); trivial.
  - rewrite N.land_diag. now apply negb_true_iff, N.eqb_neq.
  - intros CAT' Hin' Hne. rewrite Hdisjoint by assumption. reflexivity.
Qed.

End TokenCategory_masks.

Lemma to_string_listed_flags_only_witness :
  TokenCategory.to_string Sample.TokenCategory_enumerator
    Sample.N19_TOKEN_CATEGORY_LIST 64
  = TokenCategory.to_string Sample.TokenCategory_enumerator
      Sample.N19_TOKEN_CATEGORY_LIST 0.
Proof.
  apply (to_string_listed_flags_only Sample.TokenCategory_enumerator
           Sample.N19_TOKEN_CATEGORY_LIST 64 0).
  intros CAT Hin. simpl in Hin.
  repeat (destruct Hin as [<- | Hin]; [vm_compute; tauto |]).
  contradiction.
Defined.

Lemma to_string_union_witness :
  TokenCategory.to_string Sample.TokenCategory_enumerator
    Sample.N19_TOKEN_CATEGORY_LIST (N.lor 8 1)
  = String.concat " | "
      (filter
         (fun CAT =>
            negb (N.land 8 (Sample.TokenCategory_enumerator CAT) =? 0)%N
            || negb (N.land 1 (Sample.TokenCategory_enumerator CAT) =? 0)%N)
         Sample.N19_TOKEN_CATEGORY_LIST).
Proof.
  apply (to_string_union Sample.TokenCategory_enumerator
           Sample.N19_TOKEN_CATEGORY_LIST 8 1).
  left. vm_compute. discriminate.
Defined.

Lemma to_string_single_flag_witness :
  TokenCategory.to_string Sample.TokenCategory_enumerator
    Sample.N19_TOKEN_CATEGORY_LIST
    (Sample.TokenCategory_enumerator "Operator")
  = "Operator".
Proof.
  apply (to_string_single_flag Sample.TokenCategory_enumerator
           Sample.N19_TOKEN_CATEGORY_LIST "Operator").
  - exact Sample_categories_distinct.
  - simpl. tauto.
  - vm_compute. discriminate.
  - intros CAT' Hin Hne. simpl in Hin.
    repeat (destruct Hin as [<- | Hin];
            [try reflexivity; exfalso; apply Hne; reflexivity |]).
    contradiction.
Defined.

(** * Core/Tuple.hpp *)

Section Tuple_facts.

Variable ty : Type.
Variable object : ty -> Type.
Variable construct : forall T OT : ty, option (object OT -> object T).
Variable copy_construct : forall T OT : ty, option (object OT -> object T).

Lemma NthType_some (n : nat) (Types : list ty) :
  (n < List.length Types)%nat -> exists T, Tuple.NthType ty n Types = Some T.
Proof.
  revert n. induction Types as [| T Tail IH]; intros n Hn; simpl in *.
  - lia.
  - destruct n as [| n]; [now exists T |]. apply IH. lia.
Qed.

Lemma NthType_none (n : nat) (Types : list ty) :
  (List.length Types <= n)%nat -> Tuple.NthType ty n Types = None.
Proof.
  revert n. induction Types as [| T Tail IH]; intros n Hn; simpl in *.
  - reflexivity.
  - destruct n as [| n]; [lia |]. apply IH. lia.
Qed.

Lemma NthType_in_range (n : nat) (Types : list ty) (T : ty) :
  Tuple.NthType ty n Types = Some T -> (n < List.length Types)%nat.
Proof.
  intros HT. destruct (Nat.lt_ge_cases n (List.length Types)) as [H | H];
    [assumption |].
  rewrite (NthType_none n Types H) in HT. discriminate HT.
Qed.

(** Inside both packs, the value of [ConstructibleWith_<n, OTs...>] tells
    whether the types at the indices up to [n] are constructible. *)
Lemma ConstructibleWith_inside (Types OTs : list ty) (n : nat) :
  (n < List.length Types)%nat -> (n < List.length OTs)%nat ->
  exists value,
    Tuple.ConstructibleWith_ ty object construct Types n OTs = Some value /\
    (value = true <->
     forall i T OT, (i <= n)%nat ->
       Tuple.NthType ty i Types = Some T ->
       Tuple.NthType ty i OTs = Some OT ->
       Tuple.constructible_from ty object construct T OT = true).
Proof.
  induction n as [| n IH]; intros HT HO.
  - destruct (NthType_some 0 Types HT) as [T ET].
    destruct (NthType_some 0 OTs HO) as [OT EO].
    simpl. rewrite ET, EO. eexists. split; [reflexivity |]. split.
    + intros Hc i T' OT' Hi ET' EO'.
      assert (i = 0)%nat as -> by lia. congruence.
    + intros Hall. now apply (Hall 0%nat).
  - destruct (NthType_some (S n) Types HT) as [T ET].
    destruct (NthType_some (S n) OTs HO) as [OT EO].
    destruct IH as (before & Ebefore & Hbefore); [lia | lia |].
    simpl. cbv zeta. rewrite ET, EO, Ebefore.
    eexists. split; [reflexivity |]. rewrite andb_true_iff. split.
    + intros [Hthis Hrest] i T' OT' Hi ET' EO'.
      destruct (Nat.eq_dec i (S n)) as [-> | Hne].
      * congruence.
      * apply (proj1 Hbefore Hrest i); trivial. lia.
    + intros Hall. split.
      * now apply (Hall (S n)).
      * apply Hbefore. intros i T' OT' Hi. apply Hall. lia.
Qed.

(** X15: [ConstructibleWith_<n, OTs...>] has a value exactly when [n] is an
    index of both packs, and the value is true exactly when every type of
    [Types] at an index up to [n] is constructible from the type of [OTs]
    at this index; what lies behind [n] in either pack is not looked at. *)
Theorem ConstructibleWith_checks_up_to_n (Types OTs : list ty) (n : nat) :
  ((n < List.length Types)%nat /\ (n < List.length OTs)%nat ->
   exists value,
     Tuple.ConstructibleWith_ ty object construct Types n OTs = Some value /\
     (value = true <->
      forall i T OT, (i <= n)%nat ->
        Tuple.NthType ty i Types = Some T ->
        Tuple.NthType ty i OTs = Some OT ->
        Tuple.constructible_from ty object construct T OT = true)) /\
  ((List.length Types <= n)%nat \/ (List.length OTs <= n)%nat ->
   Tuple.ConstructibleWith_ ty object construct Types n OTs = None).
Proof.
  split.
  - intros [HT HO]. now apply ConstructibleWith_inside.
  - intros Hout.
    assert (Hhere :
      match Tuple.NthType ty n Types, Tuple.NthType ty n OTs with
      | Some T, Some OT =>
          Some (Tuple.constructible_from ty object construct T OT)
      | _, _ => None
      end = None).
    { destruct Hout as [H | H]; rewrite (NthType_none _ _ H);
        [reflexivity | now destruct (Tuple.NthType ty n Types)]. }
    destruct n as [| n]; simpl; cbv zeta; now rewrite Hhere.
Qed.

(** The storage can be converted exactly when the packs have the same
    length and, index by index, the type of the target has a constructor
    from a [const] lvalue of the type of the source. *)
Lemma convert_some_iff (Types : list ty) : forall (OTs : list ty)
  (other : Tuple.TupleStorage ty object OTs),
  (exists store,
     Tuple.convert ty object copy_construct Types OTs other = Some store) <->
  List.length Types = List.length OTs /\
  forall i T OT,
    Tuple.NthType ty i Types = Some T ->
    Tuple.NthType ty i OTs = Some OT ->
    copy_construct T OT <> None.
Proof.
  induction Types as [| T Tail IH]; intros [| OT OTail] other; simpl.
  - split; [| intros _; now eexists].
    intros _. split; [reflexivity |]. intros i T OT H. discriminate H.
  - split; [intros [store H]; discriminate H | intros [H _]; discriminate H].
  - split; [intros [store H]; discriminate H | intros [H _]; discriminate H].
  - specialize (IH OTail (Tuple.tail_ ty object other)).
    split.
    + intros [store Hstore].
      destruct (copy_construct T OT) as [ctor |] eqn:Ector;
        [| discriminate].
      destruct (Tuple.convert ty object copy_construct Tail OTail _)
        as [tail |] eqn:Etail; [| discriminate].
      destruct (proj1 IH (ex_intro _ tail eq_refl)) as [Hlen Hall].
      split; [now rewrite Hlen |].
      intros [| i] T' OT' HT' HO'; simpl in HT', HO'.
      * inversion HT'; inversion HO'; subst. now rewrite Ector.
      * now apply (Hall i).
    + intros [Hlen Hall].
      pose proof (Hall 0%nat T OT eq_refl eq_refl) as Hhead.
      destruct (copy_construct T OT) as [ctor |]; [| now elim Hhead].
      destruct (proj2 IH) as [tail ->].
      * split; [lia |]. intros i T' OT'. apply (Hall (S i)).
      * now eexists.
Qed.

(** Item by item, the converted storage holds what the constructors make of
    the items of the other storage. *)
Lemma convert_items (Types : list ty) : forall (OTs : list ty)
  (other : Tuple.TupleStorage ty object OTs)
  (store : Tuple.TupleStorage ty object Types),
  Tuple.convert ty object copy_construct Types OTs other = Some store ->
  forall i T,
    Tuple.NthType ty i Types = Some T ->
    Tuple.typed ty object i Types (Tuple.access ty object i Types store)
    = Tuple.converted ty object copy_construct T
        (Tuple.typed ty object i OTs (Tuple.access ty object i OTs other)).
Proof.
  induction Types as [| T Tail IH]; intros [| OT OTail] other store Hstore
    i T' HT'; simpl in Hstore; try discriminate.
  destruct (copy_construct T OT) as [ctor |] eqn:Ector; [| discriminate].
  destruct (Tuple.convert ty object copy_construct Tail OTail _)
    as [tail |] eqn:Etail; [| discriminate].
  inversion Hstore; subst. clear Hstore.
  destruct i as [| i]; simpl in HT'.
  - inversion HT'; subst. unfold Tuple.typed. simpl. now rewrite Ector.
  - exact (IH OTail _ tail Etail i T' HT').
Qed.

(** X16: the converting constructor can be used exactly for a source tuple
    that is not empty and has as many items as the target, where index by
    index the target's type is constructible from the source's type, as the
    requires-clause asks, and has a constructor from a [const] lvalue of
    it, which the storage calls. *)
Theorem Tuple_from_usable (Types OTs : list ty)
  (other : Tuple.Tuple ty object OTs) :
  (exists tup,
     Tuple.Tuple_from ty object construct copy_construct (Types := Types)
       other = Some tup)
  <->
  OTs <> [] /\
  List.length Types = List.length OTs /\
  forall i T OT,
    Tuple.NthType ty i Types = Some T ->
    Tuple.NthType ty i OTs = Some OT ->
    Tuple.constructible_from ty object construct T OT = true /\
    copy_construct T OT <> None.
Proof.
  unfold Tuple.Tuple_from.
  destruct OTs as [| OT OTail].
  { split; [intros [tup H]; discriminate H | intros [H _]; now elim H]. }
  assert (Hlast : forall i T,
            Tuple.NthType ty i (OT :: OTail) = Some T ->
            (i <= List.length (OT :: OTail) - 1)%nat).
  { intros i T HT. apply NthType_in_range in HT. lia. }
  split.
  - intros [tup Htup].
    destruct (Tuple.ConstructibleWith_ _ _ _ _ _ _) as [[|] |] eqn:Evalue;
      try discriminate.
    destruct (Tuple.convert ty object copy_construct Types (OT :: OTail) _)
      as [store |] eqn:Estore; [| discriminate].
    destruct (proj1 (convert_some_iff Types (OT :: OTail)
                       (Tuple.store_ ty object _ other))
                (ex_intro _ store Estore)) as [Hlen Hcopy].
    split; [discriminate |]. split; [assumption |].
    intros i T OT' HT HO. split; [| now apply (Hcopy i)].
    destruct (ConstructibleWith_inside Types (OT :: OTail)
                (List.length (OT :: OTail) - 1))
      as (value & Evalue' & Hvalue); [simpl in *; lia | simpl; lia |].
    rewrite Evalue in Evalue'. inversion Evalue'; subst.
    apply (proj1 Hvalue eq_refl i); trivial. now apply (Hlast i OT').
  - intros (_ & Hlen & Hall).
    destruct (ConstructibleWith_inside Types (OT :: OTail)
                (List.length (OT :: OTail) - 1))
      as (value & -> & Hvalue); [simpl in *; lia | simpl; lia |].
    assert (value = true) as ->.
    { apply Hvalue. intros i T' OT' _ HT HO. now apply (Hall i). }
    destruct (proj2 (convert_some_iff Types (OT :: OTail)
                       (Tuple.store_ ty object _ other)))
      as [store ->].
    + split; [assumption |]. intros i T' OT' HT HO. now apply (Hall i).
    + now eexists.
Qed.

(** X17: a tuple made by the converting constructor holds, at every index,
    the value that the constructor of the target's type from a [const]
    lvalue makes of the item of the source tuple at this index. *)
Theorem get_Tuple_from (Types OTs : list ty)
  (other : Tuple.Tuple ty object OTs) (tup : Tuple.Tuple ty object Types) :
  Tuple.Tuple_from ty object construct copy_construct other = Some tup ->
  forall i T,
    Tuple.NthType ty i Types = Some T ->
    Tuple.typed ty object i Types (Tuple.get ty object i tup)
    = Tuple.converted ty object copy_construct T
        (Tuple.typed ty object i OTs (Tuple.get ty object i other)).
Proof.
  unfold Tuple.Tuple_from, Tuple.get. intros Htup i T HT.
  destruct OTs as [| OT OTail]; [discriminate |].
  destruct (Tuple.ConstructibleWith_ _ _ _ _ _ _) as [[|] |];
    try discriminate.
  destruct (Tuple.convert ty object copy_construct Types (OT :: OTail) _)
    as [store |] eqn:Estore; [| discriminate].
  inversion Htup; subst. simpl.
  now apply (convert_items Types (OT :: OTail) _ store Estore).
Qed.

(** X18: the requires-clause of the converting constructor looks at the
    first [sizeof...(OTs)] types only: a shorter tuple whose item types fit
    in order satisfies it, and still no tuple can be made of it, as the
    storage has no item left to build the rest from. *)
Theorem Tuple_from_shorter (Types OTs : list ty)
  (other : Tuple.Tuple ty object OTs) :
  OTs <> [] ->
  (List.length OTs < List.length Types)%nat ->
  (forall i T OT,
     Tuple.NthType ty i Types = Some T ->
     Tuple.NthType ty i OTs = Some OT ->
     Tuple.constructible_from ty object construct T OT = true) ->
  Tuple.ConstructibleWith_ ty object construct Types (List.length OTs - 1) OTs
    = Some true /\
  Tuple.convert ty object copy_construct Types OTs
    (Tuple.store_ ty object OTs other) = None /\
  Tuple.Tuple_from ty object construct copy_construct (Types := Types) other
    = None.
Proof.
  intros Hne Hshort Hall.
  assert (Hpos : (0 < List.length OTs)%nat).
  { destruct OTs; [now elim Hne | simpl; lia]. }
  destruct (ConstructibleWith_inside Types OTs (List.length OTs - 1))
    as (value & Evalue & Hvalue); [lia | lia |].
  assert (value = true) as ->.
  { apply Hvalue. intros i T' OT' _. apply Hall. }
  assert (Hnone : Tuple.convert ty object copy_construct Types OTs
                    (Tuple.store_ ty object OTs other) = None).
  { destruct (Tuple.convert ty object copy_construct Types OTs _)
      as [store |] eqn:Estore; [| reflexivity].
    exfalso.
    destruct (proj1 (convert_some_iff Types OTs
                       (Tuple.store_ ty object OTs other))
                (ex_intro _ store Estore)) as [Hlen _]. lia. }
  split; [assumption |]. split; [assumption |].
  unfold Tuple.Tuple_from. destruct OTs as [| OT OTail]; [reflexivity |].
  now rewrite Evalue, Hnone.
Qed.

End Tuple_facts.

Lemma ConstructibleWith_checks_up_to_n_witness :
  (exists value,
     Tuple.ConstructibleWith_ SampleTuple.ty SampleTuple.object
       SampleTuple.construct
       [SampleTuple.Long; SampleTuple.Bool; SampleTuple.Int] 1
       [SampleTuple.Int; SampleTuple.Int] = Some value /\
     (value = true <->
      forall i T OT, (i <= 1)%nat ->
        Tuple.NthType SampleTuple.ty i
          [SampleTuple.Long; SampleTuple.Bool; SampleTuple.Int] = Some T ->
        Tuple.NthType SampleTuple.ty i [SampleTuple.Int; SampleTuple.Int]
          = Some OT ->
        Tuple.constructible_from SampleTuple.ty SampleTuple.object
          SampleTuple.construct T OT = true)) /\
  Tuple.ConstructibleWith_ SampleTuple.ty SampleTuple.object
    SampleTuple.construct [SampleTuple.Long; SampleTuple.Bool] 2
    [SampleTuple.Int; SampleTuple.Int; SampleTuple.Int] = None.
Proof.
  split.
  - apply (ConstructibleWith_checks_up_to_n SampleTuple.ty SampleTuple.object
             SampleTuple.construct
             [SampleTuple.Long; SampleTuple.Bool; SampleTuple.Int]
             [SampleTuple.Int; SampleTuple.Int] 1).
    simpl. lia.
  - apply (ConstructibleWith_checks_up_to_n SampleTuple.ty SampleTuple.object
             SampleTuple.construct [SampleTuple.Long; SampleTuple.Bool]
             [SampleTuple.Int; SampleTuple.Int; SampleTuple.Int] 2).
    left. simpl. lia.
Defined.

Lemma get_Tuple_from_witness :
  Tuple.typed SampleTuple.ty SampleTuple.object 1
    [SampleTuple.Long; SampleTuple.Long]
    (Tuple.get SampleTuple.ty SampleTuple.object 1
       {| Tuple.store_ :=
            ((7, (0, tt))
             : Tuple.TupleStorage SampleTuple.ty SampleTuple.object
                 [SampleTuple.Long; SampleTuple.Long]) |})
  = Tuple.converted SampleTuple.ty SampleTuple.object
      SampleTuple.copy_construct SampleTuple.Long
      (Tuple.typed SampleTuple.ty SampleTuple.object 1
         [SampleTuple.Int; SampleTuple.Int]
         (Tuple.get SampleTuple.ty SampleTuple.object 1 SampleTuple.ints)).
Proof.
  apply (get_Tuple_from SampleTuple.ty SampleTuple.object
           SampleTuple.construct SampleTuple.copy_construct
           [SampleTuple.Long; SampleTuple.Long]
           [SampleTuple.Int; SampleTuple.Int] SampleTuple.ints).
  - reflexivity.
  - reflexivity.
Defined.

(** The requires-clause holds for a boolean from an integer, the storage
    has no constructor to build it from a [const] integer: the converting
    constructor cannot be used. *)
Example Tuple_from_rvalue_only :
  Tuple.ConstructibleWith_ SampleTuple.ty SampleTuple.object
    SampleTuple.construct [SampleTuple.Long; SampleTuple.Bool] 1
    [SampleTuple.Int; SampleTuple.Int] = Some true /\
  Tuple.Tuple_from SampleTuple.ty SampleTuple.object SampleTuple.construct
    SampleTuple.copy_construct
    (Types := [SampleTuple.Long; SampleTuple.Bool]) SampleTuple.ints = None.
Proof. split; reflexivity. Qed.

Lemma Sample_prefix_constructible :
  forall i T OT,
    Tuple.NthType SampleTuple.ty i [SampleTuple.Long; SampleTuple.Bool]
      = Some T ->
    Tuple.NthType SampleTuple.ty i [SampleTuple.Int] = Some OT ->
    Tuple.constructible_from SampleTuple.ty SampleTuple.object
      SampleTuple.construct T OT = true.
Proof.
  intros [| i] T OT HT HO; simpl in HT, HO.
  - inversion HT; inversion HO; subst. reflexivity.
  - discriminate HO.
Defined.

Lemma Tuple_from_shorter_witness :
  Tuple.ConstructibleWith_ SampleTuple.ty SampleTuple.object
    SampleTuple.construct [SampleTuple.Long; SampleTuple.Bool]
    (List.length [SampleTuple.Int] - 1) [SampleTuple.Int] = Some true /\
  Tuple.convert SampleTuple.ty SampleTuple.object
    SampleTuple.copy_construct
    [SampleTuple.Long; SampleTuple.Bool] [SampleTuple.Int]
    (Tuple.store_ SampleTuple.ty SampleTuple.object [SampleTuple.Int]
       SampleTuple.one_int) = None /\
  Tuple.Tuple_from SampleTuple.ty SampleTuple.object SampleTuple.construct
    SampleTuple.copy_construct
    (Types := [SampleTuple.Long; SampleTuple.Bool]) SampleTuple.one_int
  = None.
Proof.
  apply (Tuple_from_shorter SampleTuple.ty SampleTuple.object
           SampleTuple.construct SampleTuple.copy_construct
           [SampleTuple.Long; SampleTuple.Bool]
           [SampleTuple.Int] SampleTuple.one_int).
  - discriminate.
  - simpl. lia.
  - exact Sample_prefix_constructible.
Defined.

(** * Sys/IODevice.hpp *)

(** X19: on either platform, whatever the device held, [close] hands the
    handle it held to the system's close call (after cancelling pending
    input and output, on Windows) and leaves the device invalid and without
    permissions. *)
Theorem close_leaves_invalid (platform : IODevice.Platform)
  (dev : IODevice.t) :
  IODevice.seq (IODevice.close platform)
    (fun _ => IODevice.is_invalid platform) dev
  = (true,
     {| IODevice.value_ := IODevice.invalid_handle platform;
        IODevice.perms_ := IODevice.NoAccess |},
     match platform with
     | IODevice.N19_POSIX => [IODevice.posix_close (IODevice.value_ dev)]
     | IODevice.N19_WIN32 =>
         [IODevice.CancelIoEx (IODevice.value_ dev);
          IODevice.CloseHandle (IODevice.value_ dev)]
     end).
Proof. destruct platform; reflexivity. Qed.

(** X20: [close] does not ask whether the device is valid: closing a device
    a second time makes the system calls again, now on the invalid handle,
    and leaves the device as the first [close] left it. *)
Theorem close_twice (platform : IODevice.Platform) (dev : IODevice.t) :
  IODevice.seq (IODevice.close platform)
    (fun _ => IODevice.close platform) dev
  = (tt,
     {| IODevice.value_ := IODevice.invalid_handle platform;
        IODevice.perms_ := IODevice.NoAccess |},
     match platform with
     | IODevice.N19_POSIX =>
         [IODevice.posix_close (IODevice.value_ dev);
          IODevice.posix_close (-1)]
     | IODevice.N19_WIN32 =>
         [IODevice.CancelIoEx (IODevice.value_ dev);
          IODevice.CloseHandle (IODevice.value_ dev);
          IODevice.CancelIoEx 0;
          IODevice.CloseHandle 0]
     end).
Proof. destruct platform; reflexivity. Qed.

(** * Witnesses of the general statements above *)


Lemma value_wrapped_sum_overruns_witness :
  Token.value
    (Token.illegal Sample.TokenType_enumerator
       Sample.TokenCategory_enumerator 5 4294967295 1) Sample.lexer
  = Undefined.
Proof.
  apply (value_wrapped_sum_overruns
           (Token.illegal Sample.TokenType_enumerator
              Sample.TokenCategory_enumerator 5 4294967295 1) Sample.lexer).
  - unfold Token.in_range. simpl. lia.
  - simpl. lia.
  - simpl. lia.
  - simpl. lia.
Defined.
